(** * Planetary motion simulation: the simulation core of [main.py]

    The development embeds the class [Planet] of [main.py] (its constructor,
    [attract], [collide] and [update_position]) and the loop of the main
    program that calls [update_position] on every body of the shared list
    [planets] (lines 315-317).

    Numbers.  Python's [float] is read as the real number it stands for: the
    arithmetic of the program ([+], [*], [/], [**], [math.sqrt],
    [math.atan2], [math.cos], [math.sin]) is the arithmetic of [R].  Rounding,
    overflow and signed zeros are outside this reading.  What Python raises
    on real arguments is kept: a division by zero is [ZeroDivisionError],
    [list.remove] of an absent element is [ValueError].  A cube root of a
    negative number, which Python gives as a complex number, has no place
    among the reals: see [pow_third].  Neither has the [OverflowError] of
    [**] on floats beyond the range of the type: a computation the reading
    gives a result for may raise in Python, so the theorems about the
    step say what holds when the code returns.

    Objects.  A [Planet] object has an identity ([==] on planets is identity,
    the class defines no [__eq__]); the field [ident] carries it, and a new
    object takes the next unused identity of the [world]. *)

From Stdlib Require Import Reals Lra Lia List String ZArith Bool Arith.
Import ListNotations.

Open Scope R_scope.

(** ** Results of operations that may raise *)

Inductive exn : Type :=
| ZeroDivisionError
| ValueError
| TypeError.

Inductive result (A : Type) : Type :=
| Ok (a : A)
| Raise (e : exn).

Arguments Ok {A} a.
Arguments Raise {A} e.

Definition bind {A B : Type} (r : result A) (k : A -> result B) : result B :=
  match r with
  | Ok a => k a
  | Raise e => Raise e
  end.

Notation "x <- r ;; k" := (bind r (fun x => k))
  (at level 61, r at next level, right associativity).

(** ** Physics constants (lines 27-36) *)

Definition G : R := 6.67430e-11.
Definition SCALE : R := 100 / 1.496e11.
Definition TIMESTEP : R := 3600 * 24.
Definition trail_limit : nat := 200.

(** ** Library functions of [math] on real arguments *)

(** [math.atan2 y x]: the angle of the point [(x, y)], in [(-PI, PI]]. *)
Definition atan2 (y x : R) : R :=
  if Rlt_dec 0 x then atan (y / x)
  else if Rlt_dec x 0 then
    (if Rle_dec 0 y then atan (y / x) + PI else atan (y / x) - PI)
  else if Rlt_dec 0 y then PI / 2
  else if Rlt_dec y 0 then - (PI / 2)
  else 0.

(** [b ** (1/3)] of line 105.  On a positive base it is the real power, on
    zero it is zero.  On a negative base Python answers with a complex
    number, on which the comparison of line 131 raises [TypeError]: the
    embedding raises it at once. *)
Definition pow_third (b : R) : result R :=
  if Rlt_dec 0 b then Ok (Rpower b (1 / 3))
  else if Req_dec_T b 0 then Ok 0
  else Raise TypeError.

(** ** The class Planet (lines 51-63) *)

Definition color_t : Type := (Z * Z * Z)%type.

Record Planet : Type := mkPlanet {
  ident : nat;
  x : R;
  y : R;
  radius : R;
  physical_radius : R;
  color : color_t;
  mass : R;
  name : string;
  type_id : Z;
  orbit : list (R * R);
  x_vel : R;
  y_vel : R
}.

(** [Planet.__init__]; [id] is the identity of the object being built. *)
Definition Planet_init (id : nat) (x0 y0 radius0 : R) (color0 : color_t)
    (mass0 : R) (name0 : string) (type_id0 : Z) : Planet :=
  {| ident := id;
     x := x0;
     y := y0;
     radius := radius0;
     physical_radius := radius0 / SCALE;
     color := color0;
     mass := mass0;
     name := name0;
     type_id := type_id0;
     orbit := [];
     x_vel := 0;
     y_vel := 0 |}.

Definition set_vel (p : Planet) (vx vy : R) : Planet :=
  {| ident := ident p; x := x p; y := y p; radius := radius p;
     physical_radius := physical_radius p; color := color p; mass := mass p;
     name := name p; type_id := type_id p; orbit := orbit p;
     x_vel := vx; y_vel := vy |}.

(** [self == planet]: identity of objects. *)
Definition same (p q : Planet) : bool := Nat.eqb (ident p) (ident q).

(** [math.sqrt(dx ** 2 + dy ** 2)] with [dx], [dy] from [self] to [other]
    (lines 87-89 and 127-129). *)
Definition distance (self other : Planet) : R :=
  let dx := x other - x self in
  let dy := y other - y self in
  sqrt (dx ^ 2 + dy ^ 2).

(** ** Planet.attract (lines 86-97) *)

Definition attract (self other : Planet) : R * R :=
  let dx := x other - x self in
  let dy := y other - y self in
  let distance := sqrt (dx ^ 2 + dy ^ 2) in
  if Req_dec_T distance 0 then (0, 0)
  else
    let force := G * mass self * mass other / distance ^ 2 in
    let theta := atan2 dy dx in
    let fx := cos theta * force in
    let fy := sin theta * force in
    (fx, fy).

(** ** Planet.collide (lines 99-118) *)

Definition collide (fresh : nat) (self other : Planet) : result Planet :=
  let total_mass := mass self + mass other in
  if Req_dec_T total_mass 0 then Raise ZeroDivisionError
  else
    let x_vel0 := (x_vel self * mass self + x_vel other * mass other) / total_mass in
    let y_vel0 := (y_vel self * mass self + y_vel other * mass other) / total_mass in
    root <- pow_third (physical_radius self ^ 3 + physical_radius other ^ 3) ;;
    let new_radius := root * SCALE in
    let new_type := if Rgt_dec (mass self) (mass other)
                    then type_id self else type_id other in
    let new_name := (name self ++ "+" ++ name other)%string in
    let new_planet :=
      Planet_init fresh ((x self + x other) / 2) ((y self + y other) / 2)
        new_radius (color self) total_mass new_name new_type in
    Ok (set_vel new_planet x_vel0 y_vel0).

(** ** The shared list [planets] and the allocation of objects *)

Record world : Type := mkWorld {
  planets : list Planet;
  next_id : nat
}.

(** [planets.remove(p)]: drops the first element equal to [p], raises
    [ValueError] when there is none. *)
Fixpoint list_remove (p : Planet) (l : list Planet) : result (list Planet) :=
  match l with
  | [] => Raise ValueError
  | q :: rest =>
      if same q p then Ok rest
      else rest' <- list_remove p rest ;; Ok (q :: rest')
  end.

(** The assignments to the attributes of [self] change the one object, which
    the list holds by reference: the entry of that identity takes the new
    state. *)
Fixpoint write_back (p : Planet) (l : list Planet) : list Planet :=
  match l with
  | [] => []
  | q :: rest => if same q p then p :: rest else q :: write_back p rest
  end.

(** ** Planet.update_position (lines 120-150) *)

(** Outcome of the loop of lines 122-140: it returns from the method after a
    merge with [planet], or it ends with the accumulated force. *)
Inductive scan_result : Type :=
| Collided (planet : Planet)
| Forces (total_fx total_fy : R).

(** Lines 142-150 on the state of [self]. *)
Definition integrate (self : Planet) (total_fx total_fy : R) : result Planet :=
  if Req_dec_T (mass self) 0 then Raise ZeroDivisionError
  else
    let x_vel' := x_vel self + total_fx / mass self * TIMESTEP in
    let y_vel' := y_vel self + total_fy / mass self * TIMESTEP in
    let x' := x self + x_vel' * TIMESTEP in
    let y' := y self + y_vel' * TIMESTEP in
    let orbit1 := (orbit self ++ [(x', y')])%list in
    let orbit2 := if Nat.ltb trail_limit (List.length orbit1)
                  then tl orbit1 else orbit1 in
    Ok {| ident := ident self; x := x'; y := y'; radius := radius self;
          physical_radius := physical_radius self; color := color self;
          mass := mass self; name := name self; type_id := type_id self;
          orbit := orbit2; x_vel := x_vel'; y_vel := y_vel' |}.

Section ForceLaw.

(** The loop is written over the force law it calls; the program calls
    [attract]. *)
Variable force_law : Planet -> Planet -> R * R.

Fixpoint scan_with (self : Planet) (snapshot : list Planet)
    (total_fx total_fy : R) : scan_result :=
  match snapshot with
  | [] => Forces total_fx total_fy
  | planet :: rest =>
      if same self planet then scan_with self rest total_fx total_fy
      else
        if Rle_dec (distance self planet)
             (physical_radius self + physical_radius planet)
        then Collided planet
        else
          let '(fx, fy) := force_law self planet in
          scan_with self rest (total_fx + fx) (total_fy + fy)
  end.

Definition update_position_with (self : Planet) (w : world) : result world :=
  match scan_with self (planets w) 0 0 with
  | Collided planet =>
      new_planet <- collide (next_id w) self planet ;;
      l1 <- list_remove self (planets w) ;;
      l2 <- list_remove planet l1 ;;
      Ok {| planets := (l2 ++ [new_planet])%list; next_id := S (next_id w) |}
  | Forces total_fx total_fy =>
      self' <- integrate self total_fx total_fy ;;
      Ok {| planets := write_back self' (planets w); next_id := next_id w |}
  end.

End ForceLaw.

Definition scan := scan_with attract.
Definition update_position := update_position_with attract.

(** ** The loop of the main program over [planets] (lines 315-317) *)

(** [planet == dragging_planet], where [dragging_planet] is a planet or
    [None]. *)
Definition is_dragging (planet : Planet) (dragging_planet : option nat) : bool :=
  match dragging_planet with
  | Some d => Nat.eqb (ident planet) d
  | None => false
  end.

(** [for planet in planets] reads the live list through an index: the
    iteration [i] takes [planets[i]] of the list as it is then, and the loop
    ends when [i] reaches the length.  [fuel] bounds the iterations left;
    [frame_loop_fuel] shows that [length planets - i] is enough. *)
Fixpoint frame_loop (fuel : nat) (paused : bool) (dragging_planet : option nat)
    (i : nat) (w : world) : result world :=
  match fuel with
  | O => Ok w
  | S fuel' =>
      match nth_error (planets w) i with
      | None => Ok w
      | Some planet =>
          if negb paused || is_dragging planet dragging_planet then
            w' <- update_position planet w ;;
            frame_loop fuel' paused dragging_planet (S i) w'
          else frame_loop fuel' paused dragging_planet (S i) w
      end
  end.

Definition frame (paused : bool) (dragging_planet : option nat) (w : world)
    : result world :=
  frame_loop (List.length (planets w)) paused dragging_planet 0 w.

(** Successive frames, each with the pause flag and the dragged planet the
    event handling left for it. *)
Fixpoint run (inputs : list (bool * option nat)) (w : world) : result world :=
  match inputs with
  | [] => Ok w
  | (paused, dragging_planet) :: rest =>
      w' <- frame paused dragging_planet w ;; run rest w'
  end.

(** The test of line 131. *)
Definition overlaps (a b : Planet) : Prop :=
  distance a b <= physical_radius a + physical_radius b.

(** [attract] with the value of its [distance == 0] branch (line 91) left
    open: [attract_with_zero_case (0, 0)] is [attract]. *)
Definition attract_with_zero_case (z : R * R) (self other : Planet) : R * R :=
  let dx := x other - x self in
  let dy := y other - y self in
  let distance := sqrt (dx ^ 2 + dy ^ 2) in
  if Req_dec_T distance 0 then z
  else
    let force := G * mass self * mass other / distance ^ 2 in
    let theta := atan2 dy dx in
    let fx := cos theta * force in
    let fy := sin theta * force in
    (fx, fy).

(** ** Invariants of the collection *)

(** The trail ends at the position of the body. *)
Definition trail_ends_here (p : Planet) : Prop :=
  exists front, orbit p = (front ++ [(x p, y p)])%list.

(** No trail is longer than [trail_limit]. *)
Definition trails_bounded (w : world) : Prop :=
  Forall (fun p => (List.length (orbit p) <= trail_limit)%nat) (planets w).

Definition positive_masses (w : world) : Prop :=
  Forall (fun p => 0 < mass p) (planets w).

(** Every object is listed once, and the identities in use are below the
    next one to be given out. *)
Definition wf_ids (w : world) : Prop :=
  NoDup (map ident (planets w)) /\
  Forall (fun p => (ident p < next_id w)%nat) (planets w).

(** ** Sample bodies

    Bodies are built as the main program builds them (lines 237-239): the
    constructor, then the two velocity attributes. *)

Definition WHITE : color_t := (255, 255, 255)%Z.

Definition body (id : nat) (x0 y0 radius0 mass0 vx vy : R) (name0 : string)
    (type_id0 : Z) : Planet :=
  set_vel (Planet_init id x0 y0 radius0 WHITE mass0 name0 type_id0) vx vy.

(** Two rocks of equal mass and different type, at rest, physical radius 1. *)
Definition rock_a : Planet := body 0 0 0 SCALE 5 0 0 "a" 1.
Definition rock_b : Planet := body 1 3 4 SCALE 5 2 0 "b" 2.

Definition rocks : world := {| planets := [rock_a; rock_b]; next_id := 2 |}.

(** What [rock_a.collide(rock_b)] builds, with the arithmetic carried out. *)
Definition rock_ab : Planet :=
  {| ident := 2; x := 1.5; y := 2;
     radius := Rpower 2 (1 / 3) * SCALE;
     physical_radius := Rpower 2 (1 / 3);
     color := WHITE; mass := 10; name := "a+b"; type_id := 2;
     orbit := []; x_vel := 1; y_vel := 0 |}.

(** Two equal bodies at rest whose physical radii (1e6 m each) overlap: they
    are 1.5e6 m apart. *)
Definition impact_a : Planet := body 0 0 0 (1e6 * SCALE) 1e24 0 0 "A" 2.
Definition impact_b : Planet := body 1 1.5e6 0 (1e6 * SCALE) 1e24 0 0 "B" 2.
Definition impact : world := {| planets := [impact_a; impact_b]; next_id := 2 |}.

(** The body the first frame leaves of them. *)
Definition impact_merged : Planet :=
  {| ident := 2; x := 0.75e6; y := 0;
     radius := Rpower (1e6 ^ 3 + 1e6 ^ 3) (1 / 3) * SCALE;
     physical_radius := Rpower (1e6 ^ 3 + 1e6 ^ 3) (1 / 3);
     color := WHITE; mass := 2e24; name := "A+B"; type_id := 2;
     orbit := []; x_vel := 0; y_vel := 0 |}.

(** One body moving at 1 m/s along the x axis, and what one integration
    makes of it. *)
Definition drifter : Planet := body 0 0 0 SCALE 5 1 0 "d" 2.
Definition drifting : world := {| planets := [drifter]; next_id := 1 |}.

Definition drifter_moved : Planet :=
  {| ident := 0; x := 86400; y := 0; radius := SCALE; physical_radius := 1;
     color := WHITE; mass := 5; name := "d"; type_id := 2;
     orbit := [(86400, 0)]; x_vel := 1; y_vel := 0 |}.

(** A body at rest and a body 86400 m away that moves towards it at 1 m/s;
    their physical radii (1 m each) do not overlap.  Then the two bodies as
    one frame leaves them. *)
Definition still : Planet := body 0 0 0 SCALE 1 0 0 "s" 2.
Definition mover : Planet := body 1 86400 0 SCALE 1 (-1) 0 "m" 2.
Definition approach : world := {| planets := [still; mover]; next_id := 2 |}.

Definition still_after : Planet :=
  {| ident := 0; x := G; y := 0; radius := SCALE; physical_radius := 1;
     color := WHITE; mass := 1; name := "s"; type_id := 2;
     orbit := [(G, 0)]; x_vel := G / 86400; y_vel := 0 |}.

Definition mover_after : Planet :=
  {| ident := 1; x := - (G * 86400 ^ 2 / (86400 - G) ^ 2); y := 0;
     radius := SCALE; physical_radius := 1;
     color := WHITE; mass := 1; name := "m"; type_id := 2;
     orbit := [(- (G * 86400 ^ 2 / (86400 - G) ^ 2), 0)];
     x_vel := -1 - G * 86400 / (86400 - G) ^ 2; y_vel := 0 |}.

(** ** Quantities of the whole collection *)

(** The sum of the masses of the listed bodies. *)
Definition total_mass (l : list Planet) : R :=
  fold_right (fun p acc => mass p + acc) 0 l.

(** A body whose trail is full: [trail_limit] points. *)
Definition veteran : Planet :=
  {| ident := 0; x := 0; y := 0; radius := SCALE; physical_radius := 1;
     color := WHITE; mass := 5; name := "v"; type_id := 2;
     orbit := repeat (0, 0) trail_limit; x_vel := 1; y_vel := 0 |}.

(** ** The interactive part of the main program (lines 9-49, 243-313)

    The window, the event queue and the drawing belong to pygame.  What the
    program computes from them is embedded: the camera and drag state it
    keeps in its global variables, the effect of each event on that state,
    the drag of a body, the hover test, and the lookups of [TYPE_MAP]. *)

Definition WIDTH : R := 1200.
Definition HEIGHT : R := 1000.
Definition scroll_speed : R := 0.1.

(** [TYPE_MAP] (lines 42-49), a dict with integer keys. *)
Definition TYPE_MAP : list (Z * string) :=
  [(1%Z, "Star"%string); (2%Z, "Planet"%string); (3%Z, "Moon"%string); (4%Z, "Comet"%string);
   (5%Z, "Asteroid"%string); (6%Z, "Black Hole"%string)].

(** [d[key]]: [None] stands for [KeyError]. *)
Fixpoint dict_lookup (d : list (Z * string)) (key : Z) : option string :=
  match d with
  | [] => None
  | (k, v) :: rest => if Z.eqb k key then Some v else dict_lookup rest key
  end.

(** [d.get(key, default)]. *)
Definition dict_get (d : list (Z * string)) (key : Z) (default : string) : string :=
  match dict_lookup d key with
  | Some v => v
  | None => default
  end.

(** The label [draw] writes next to a body (lines 81-83). *)
Definition draw_label (self : Planet) : string :=
  (name self ++ " / " ++ dict_get TYPE_MAP (type_id self) "Unknown")%string.

(** The second line of [info_lines] in [draw_info] (line 157);
    [TYPE_MAP[planet.type_id]] raises [KeyError] on an absent key. *)
Definition info_type_line (planet : Planet) : option string :=
  match dict_lookup TYPE_MAP (type_id planet) with
  | Some v => Some ("Type: " ++ v)%string
  | None => None
  end.

(** The global variables of the camera and of the mouse interaction. *)
Record ui : Type := mkUi {
  running : bool;
  offset_x : R;
  offset_y : R;
  zoom : R;
  paused : bool;
  hovered_planet : option Planet;
  moving : bool;
  start_pos : R * R;
  dragging_planet : option nat
}.

(** The state the program starts its loop with (lines 33-40, 243-247). *)
Definition ui_init : ui :=
  {| running := true; offset_x := 0; offset_y := 0; zoom := 1.0;
     paused := false; hovered_planet := None; moving := false;
     start_pos := (0, 0); dragging_planet := None |}.

(** Screen coordinates of a body, as [draw] (lines 67-68) and the hover test
    (lines 303-304) compute them. *)
Definition scaled_x (u : ui) (p : Planet) : R :=
  x p * SCALE * zoom u + WIDTH / 2 + offset_x u.

Definition scaled_y (u : ui) (p : Planet) : R :=
  y p * SCALE * zoom u + HEIGHT / 2 + offset_y u.

(** The test of lines 305-307: the mouse is on the disc drawn for [p]. *)
Definition under_mouse (u : ui) (mouse : R * R) (p : Planet) : bool :=
  if Rle_dec (sqrt ((scaled_x u p - fst mouse) ^ 2
                    + (scaled_y u p - snd mouse) ^ 2))
             (radius p * zoom u)
  then true else false.

(** The test of lines 263-265 on a click: the position is taken without the
    zoom factor. *)
Definition clicked (u : ui) (mouse : R * R) (p : Planet) : bool :=
  if Rle_dec (sqrt ((x p * SCALE + WIDTH / 2 + offset_x u - fst mouse) ^ 2
                    + (y p * SCALE + HEIGHT / 2 + offset_y u - snd mouse) ^ 2))
             (radius p * zoom u)
  then true else false.

Inductive event : Type :=
| QUIT
| MOUSEBUTTONDOWN (button : Z) (pos : R * R)
| MOUSEBUTTONUP (button : Z)
| MOUSEMOTION (rel : R * R)
| OTHER.

(** The body of the event loop (lines 257-292) for one event; [mouse] is
    the mouse position read at the start of the frame (line 252). *)
Definition handle_event (mouse : R * R) (l : list Planet) (e : event) (u : ui)
    : ui :=
  let u1 :=
    match e with
    | QUIT =>
        {| running := false; offset_x := offset_x u; offset_y := offset_y u;
           zoom := zoom u; paused := paused u;
           hovered_planet := hovered_planet u; moving := moving u;
           start_pos := start_pos u;
           dragging_planet := dragging_planet u |}
    | _ => u
    end in
  let u2 :=
    match e with
    | MOUSEBUTTONDOWN button pos =>
        if Z.eqb button 1 then
          match find (clicked u1 mouse) l with
          | Some clicked_planet =>
              {| running := running u1; offset_x := offset_x u1;
                 offset_y := offset_y u1; zoom := zoom u1; paused := true;
                 hovered_planet := hovered_planet u1; moving := moving u1;
                 start_pos := mouse;
                 dragging_planet := Some (ident clicked_planet) |}
          | None =>
              {| running := running u1; offset_x := offset_x u1;
                 offset_y := offset_y u1; zoom := zoom u1; paused := paused u1;
                 hovered_planet := hovered_planet u1; moving := true;
                 start_pos := pos;
                 dragging_planet := dragging_planet u1 |}
          end
        else if Z.eqb button 4 then
          {| running := running u1; offset_x := offset_x u1;
             offset_y := offset_y u1; zoom := zoom u1 + scroll_speed;
             paused := paused u1; hovered_planet := hovered_planet u1;
             moving := moving u1; start_pos := start_pos u1;
             dragging_planet := dragging_planet u1 |}
        else if Z.eqb button 5 then
          {| running := running u1; offset_x := offset_x u1;
             offset_y := offset_y u1;
             zoom := Rmax 0.1 (zoom u1 - scroll_speed);
             paused := paused u1; hovered_planet := hovered_planet u1;
             moving := moving u1; start_pos := start_pos u1;
             dragging_planet := dragging_planet u1 |}
        else u1
    | _ => u1
    end in
  match e with
  | MOUSEBUTTONUP button =>
      if Z.eqb button 1 then
        {| running := running u2; offset_x := offset_x u2;
           offset_y := offset_y u2; zoom := zoom u2; paused := false;
           hovered_planet := hovered_planet u2; moving := false;
           start_pos := start_pos u2; dragging_planet := None |}
      else u2
  | MOUSEMOTION rel =>
      if moving u2 then
        {| running := running u2; offset_x := offset_x u2 + fst rel;
           offset_y := offset_y u2 + snd rel; zoom := zoom u2;
           paused := paused u2; hovered_planet := hovered_planet u2;
           moving := moving u2; start_pos := start_pos u2;
           dragging_planet := dragging_planet u2 |}
      else u2
  | _ => u2
  end.

(** [for event in pygame.event.get()]. *)
Definition handle_events (mouse : R * R) (l : list Planet) (events : list event)
    (u : ui) : ui :=
  fold_left (fun u0 e => handle_event mouse l e u0) events u.

(** [dragging_planet.x += dx; dragging_planet.y += dy] (lines 298-299). *)
Definition move (p : Planet) (dx dy : R) : Planet :=
  {| ident := ident p; x := x p + dx; y := y p + dy; radius := radius p;
     physical_radius := physical_radius p; color := color p; mass := mass p;
     name := name p; type_id := type_id p; orbit := orbit p;
     x_vel := x_vel p; y_vel := y_vel p |}.

(** Lines 294-300: the dragged body follows the mouse.  The body is reached
    through the reference [dragging_planet]; when that body is no longer
    listed the list shows no change. *)
Definition drag (mouse : R * R) (u : ui) (w : world) : result (ui * world) :=
  match dragging_planet u with
  | None => Ok (u, w)
  | Some d =>
      if Req_dec_T (SCALE * zoom u) 0 then Raise ZeroDivisionError
      else
        let dx := (fst mouse - fst (start_pos u)) / (SCALE * zoom u) in
        let dy := (snd mouse - snd (start_pos u)) / (SCALE * zoom u) in
        let planets' :=
          match find (fun p => Nat.eqb (ident p) d) (planets w) with
          | Some p => write_back (move p dx dy) (planets w)
          | None => planets w
          end in
        Ok ({| running := running u; offset_x := offset_x u;
               offset_y := offset_y u; zoom := zoom u; paused := paused u;
               hovered_planet := hovered_planet u; moving := moving u;
               start_pos := mouse;
               dragging_planet := dragging_planet u |},
            {| planets := planets'; next_id := next_id w |})
  end.

(** The loop of lines 302-313: the first listed body under the mouse, if
    any, and the value of [paused] the loop leaves. *)
Fixpoint hover_loop (u : ui) (mouse : R * R) (l : list Planet) (paused0 : bool)
    : option Planet * bool :=
  match l with
  | [] => (None, paused0)
  | planet :: rest =>
      if under_mouse u mouse planet then (Some planet, true)
      else
        hover_loop u mouse rest
          (match dragging_planet u with
           | None => false
           | Some _ => paused0
           end)
  end.

Definition hover (mouse : R * R) (u : ui) (l : list Planet) : ui :=
  let '(found, paused') := hover_loop u mouse l (paused u) in
  {| running := running u; offset_x := offset_x u; offset_y := offset_y u;
     zoom := zoom u; paused := paused';
     hovered_planet := match found with
                       | Some p => Some p
                       | None => hovered_planet u
                       end;
     moving := moving u; start_pos := start_pos u;
     dragging_planet := dragging_planet u |}.

(** A body as the manual setup builds it from the numbers typed in
    (lines 227-240): the position is typed in pixels. *)
Definition manual_planet (id : nat) (name0 : string) (type_id0 : Z)
    (x_pixels y_pixels : R) (radius0 : Z) (mass0 x_vel0 y_vel0 : R)
    (color0 : color_t) : Planet :=
  set_vel
    (Planet_init id (x_pixels / SCALE) (y_pixels / SCALE) (IZR radius0)
       color0 mass0 name0 type_id0)
    x_vel0 y_vel0.

(** Every listed body has a type [TYPE_MAP] knows. *)
Definition known_types (w : world) : Prop :=
  Forall (fun p => dict_lookup TYPE_MAP (type_id p) <> None) (planets w).

(** ** The solar system of mode 1 (lines 14-24, 191-212) *)

Definition BLACK : color_t := (0, 0, 0)%Z.
Definition YELLOW : color_t := (255, 255, 0)%Z.
Definition BLUE : color_t := (100, 149, 237)%Z.
Definition RED : color_t := (255, 0, 0)%Z.
Definition GREEN : color_t := (0, 255, 0)%Z.
Definition ORANGE : color_t := (255, 165, 0)%Z.
Definition LIGHT_BLUE : color_t := (173, 216, 230)%Z.
Definition LIGHT_GREEN : color_t := (144, 238, 144)%Z.
Definition LIGHT_GRAY : color_t := (169, 169, 169)%Z.
Definition DARK_GRAY : color_t := (169, 169, 169)%Z.

Definition sun : Planet := Planet_init 0 0 0 30 YELLOW 1.989e30 "Sun" 1.
Definition mercury : Planet :=
  set_vel (Planet_init 1 (0.387 * 1.496e11) 0 3 DARK_GRAY 3.3011e23 "Mercury" 2)
    0 47870.
Definition venus : Planet :=
  set_vel (Planet_init 2 (0.723 * 1.496e11) 0 6 GREEN 4.867e24 "Venus" 2)
    0 35020.
Definition earth : Planet :=
  set_vel (Planet_init 3 (1 * 1.496e11) 0 10 BLUE 5.972e24 "Earth" 2)
    0 29780.
Definition mars : Planet :=
  set_vel (Planet_init 4 (1.524 * 1.496e11) 0 8 RED 6.39e23 "Mars" 2)
    0 24070.
Definition jupiter : Planet :=
  set_vel (Planet_init 5 (5.203 * 1.496e11) 0 20 ORANGE 1.898e27 "Jupiter" 2)
    0 13070.
Definition saturn : Planet :=
  set_vel (Planet_init 6 (9.582 * 1.496e11) 0 18 LIGHT_GRAY 5.683e26 "Saturn" 2)
    0 9680.
Definition uranus : Planet :=
  set_vel (Planet_init 7 (19.191 * 1.496e11) 0 14 LIGHT_BLUE 8.681e25 "Uranus" 2)
    0 6800.
Definition neptune : Planet :=
  set_vel (Planet_init 8 (30.07 * 1.496e11) 0 14 LIGHT_GREEN 1.024e26 "Neptune" 2)
    0 5430.

Definition solar_system : world :=
  {| planets := [sun; mercury; venus; earth; mars; jupiter; saturn; uranus;
                 neptune];
     next_id := 9 |}.

(** The sum of the forces of [attract] on [self] due to the other listed
    bodies. *)
Definition net_force (self : Planet) (l : list Planet) : R * R :=
  fold_right
    (fun q acc =>
       if same self q then acc
       else (fst (attract self q) + fst acc, snd (attract self q) + snd acc))
    (0, 0) l.

(** Kinetic energy of a body. *)
Definition kinetic_energy (p : Planet) : R :=
  mass p * (x_vel p ^ 2 + y_vel p ^ 2) / 2.

(** The two overlapping bodies with a third one: [impact_c] overlaps
    [impact_a] too and comes later in the list; [bystander] is far from
    both. *)
Definition impact_c : Planet := body 2 1e6 0 (1e6 * SCALE) 1e24 0 0 "C" 2.
Definition pile : world :=
  {| planets := [impact_a; impact_b; impact_c]; next_id := 3 |}.

Definition bystander : Planet := body 2 1e9 0 (1e6 * SCALE) 1e24 0 0 "C" 2.
Definition crowd : world :=
  {| planets := [impact_a; impact_b; bystander]; next_id := 3 |}.

(** What [impact_a.collide(impact_b)] builds in these collections. *)
Definition crowd_merged : Planet :=
  {| ident := 3; x := 0.75e6; y := 0;
     radius := Rpower (1e6 ^ 3 + 1e6 ^ 3) (1 / 3) * SCALE;
     physical_radius := Rpower (1e6 ^ 3 + 1e6 ^ 3) (1 / 3);
     color := WHITE; mass := 2e24; name := "A+B"; type_id := 2;
     orbit := []; x_vel := 0; y_vel := 0 |}.

(** * Properties *)

(** ** Constants and real-number facts *)

Lemma G_pos : 0 < G.
Proof. unfold G. lra. Qed.
Lemma SCALE_pos : 0 < SCALE.
Proof. unfold SCALE. lra. Qed.
Lemma TIMESTEP_val : TIMESTEP = 86400.
Proof. unfold TIMESTEP. lra. Qed.

Lemma sqrt_ratio (dx dy : R) :
  dx <> 0 -> sqrt (1 + Rsqr (dy / dx)) = sqrt (dx ^ 2 + dy ^ 2) / Rabs dx.
Proof.
  intros Hdx.
  assert (Ha : 0 < Rabs dx) by (apply Rabs_pos_lt; exact Hdx).
  apply sqrt_lem_1.
  - unfold Rsqr. nra.
  - apply Rlt_le, Rdiv_lt_0_compat; [|exact Ha].
    apply sqrt_lt_R0. nra.
  - unfold Rdiv.
    replace (sqrt (dx ^ 2 + dy ^ 2) * / Rabs dx * (sqrt (dx ^ 2 + dy ^ 2) * / Rabs dx))
      with ((sqrt (dx ^ 2 + dy ^ 2) * sqrt (dx ^ 2 + dy ^ 2)) * / (Rabs dx * Rabs dx)) by (field; lra).
    rewrite sqrt_sqrt by nra.
    replace (Rabs dx * Rabs dx) with (dx * dx).
    + unfold Rsqr. field. exact Hdx.
    + unfold Rabs. destruct (Rcase_abs dx); ring.
Qed.

Lemma sqrt_sumsq_pos (dx dy : R) :
  sqrt (dx ^ 2 + dy ^ 2) <> 0 -> 0 < sqrt (dx ^ 2 + dy ^ 2).
Proof.
  intros H. pose proof (sqrt_pos (dx ^ 2 + dy ^ 2)). lra.
Qed.

Lemma sqrt_sq_abs (a : R) : sqrt (0 ^ 2 + a ^ 2) = Rabs a.
Proof.
  replace (0 ^ 2 + a ^ 2) with (Rsqr a) by (unfold Rsqr; ring).
  apply sqrt_Rsqr_abs.
Qed.

Lemma cos_sin_atan2 (dy dx : R) :
  sqrt (dx ^ 2 + dy ^ 2) <> 0 ->
  cos (atan2 dy dx) = dx / sqrt (dx ^ 2 + dy ^ 2) /\
  sin (atan2 dy dx) = dy / sqrt (dx ^ 2 + dy ^ 2).
Proof.
  intros Hd. pose proof (sqrt_sumsq_pos dx dy Hd) as Hpos.
  unfold atan2.
  destruct (Rlt_dec 0 dx) as [Hx | Hx].
  - rewrite cos_atan, sin_atan, sqrt_ratio by lra.
    rewrite Rabs_pos_eq by lra. split; field; lra.
  - destruct (Rlt_dec dx 0) as [Hx' | Hx'].
    + assert (Hr : sqrt (1 + Rsqr (dy / dx)) = sqrt (dx ^ 2 + dy ^ 2) / - dx).
      { rewrite sqrt_ratio by lra. rewrite Rabs_left by lra. reflexivity. }
      destruct (Rle_dec 0 dy) as [Hy | Hy].
      * rewrite neg_cos, neg_sin, cos_atan, sin_atan, Hr.
        split; field; lra.
      * unfold Rminus. rewrite cos_plus, sin_plus, cos_neg, sin_neg, cos_PI, sin_PI.
        rewrite cos_atan, sin_atan, Hr. split; field; lra.
    + assert (Hx0 : dx = 0) by lra. subst dx.
      rewrite sqrt_sq_abs in *.
      destruct (Rlt_dec 0 dy) as [Hy | Hy].
      * rewrite cos_PI2, sin_PI2, Rabs_pos_eq by lra. split; field; lra.
      * destruct (Rlt_dec dy 0) as [Hy' | Hy'].
        -- rewrite cos_neg, sin_neg, cos_PI2, sin_PI2, Rabs_left by lra.
           split; field; lra.
        -- assert (dy = 0) by lra. subst dy. rewrite Rabs_R0 in Hd. lra.
Qed.

Lemma SCALE_neq_0 : SCALE <> 0.
Proof. pose proof SCALE_pos. lra. Qed.

Lemma sumsq_nonneg (u v : R) : 0 <= u ^ 2 + v ^ 2.
Proof. nra. Qed.

Lemma sumsq_zero (u v : R) : u ^ 2 + v ^ 2 = 0 -> u = 0 /\ v = 0.
Proof. intros H. split; nra. Qed.

(** The positions coincide exactly when the distance is zero. *)
Lemma distance_zero_iff (a b : Planet) :
  distance a b = 0 <-> (x a, y a) = (x b, y b).
Proof.
  unfold distance. cbv zeta. split.
  - intros H. apply sqrt_eq_0 in H; [|apply sumsq_nonneg].
    apply sumsq_zero in H. destruct H as [Hx Hy].
    f_equal; lra.
  - intros H. injection H as Hx Hy. rewrite Hx, Hy.
    replace ((x b - x b) ^ 2 + (y b - y b) ^ 2) with 0 by ring.
    apply sqrt_0.
Qed.

Lemma distance_sq (a b : Planet) :
  distance a b ^ 2 = (x b - x a) ^ 2 + (y b - y a) ^ 2.
Proof.
  unfold distance. cbv zeta.
  replace (sqrt ((x b - x a) ^ 2 + (y b - y a) ^ 2) ^ 2)
    with (sqrt ((x b - x a) ^ 2 + (y b - y a) ^ 2)
          * sqrt ((x b - x a) ^ 2 + (y b - y a) ^ 2)) by ring.
  apply sqrt_sqrt, sumsq_nonneg.
Qed.

Lemma distance_sym (a b : Planet) : distance a b = distance b a.
Proof. unfold distance. f_equal. ring. Qed.

Lemma distance_nonneg (a b : Planet) : 0 <= distance a b.
Proof. apply sqrt_pos. Qed.

Lemma Rpower_third_cube (b : R) : 0 < b -> Rpower b (1 / 3) ^ 3 = b.
Proof.
  intros Hb.
  rewrite <- (Rpower_pow 3) by apply exp_pos.
  rewrite Rpower_mult.
  replace (1 / 3 * INR 3) with 1 by (simpl; field).
  apply Rpower_1, Hb.
Qed.

(** What [pow_third] returns is the non-negative cube root. *)
Lemma pow_third_spec (b root : R) :
  pow_third b = Ok root -> root ^ 3 = b /\ 0 <= root.
Proof.
  unfold pow_third. intros H.
  destruct (Rlt_dec 0 b) as [Hb | Hb].
  - injection H as <-. split.
    + apply Rpower_third_cube, Hb.
    + apply Rlt_le, exp_pos.
  - destruct (Req_dec_T b 0) as [Hz | Hz]; [|discriminate].
    injection H as <-. split; [rewrite Hz; ring | lra].
Qed.

(** ** Planet.attract *)

(** With a non-zero distance, [attract] is the force of magnitude
    [G * mA * mB / d ^ 2] along the unit vector from [self] to [other]. *)
Lemma attract_nonzero (a b : Planet) :
  distance a b <> 0 ->
  attract a b =
    (G * mass a * mass b / distance a b ^ 2 * ((x b - x a) / distance a b),
     G * mass a * mass b / distance a b ^ 2 * ((y b - y a) / distance a b)).
Proof.
  intros Hd. unfold attract. fold (distance a b).
  destruct (Req_dec_T (distance a b) 0) as [H0 | _]; [contradiction|].
  destruct (cos_sin_atan2 (y b - y a) (x b - x a) Hd) as [Hc Hs].
  rewrite Hc, Hs. fold (distance a b). f_equal; ring.
Qed.

Lemma attract_zero (a b : Planet) : distance a b = 0 -> attract a b = (0, 0).
Proof.
  intros Hd. unfold attract. fold (distance a b).
  destruct (Req_dec_T (distance a b) 0) as [_ | H0]; [reflexivity | contradiction].
Qed.

Lemma unit_vector_norm (a b : Planet) :
  distance a b <> 0 ->
  ((x b - x a) / distance a b) ^ 2 + ((y b - y a) / distance a b) ^ 2 = 1.
Proof.
  intros Hd.
  pose proof (distance_sq a b) as Hsq.
  replace (((x b - x a) / distance a b) ^ 2 + ((y b - y a) / distance a b) ^ 2)
    with (((x b - x a) ^ 2 + (y b - y a) ^ 2) / distance a b ^ 2) by (field; exact Hd).
  rewrite <- Hsq. field. exact Hd.
Qed.

(** C3.  The force [attract] computes for [a] due to [b]: with a non-zero
    distance [d] it is [F = G * mA * mB / d ^ 2] times the unit vector from
    the position of [a] to the position of [b], so its magnitude is [|F|]
    (which is [F] for positive masses); with [d = 0] it is [(0, 0)];
    [G] is 6.67430e-11. *)
Theorem attract_newton (a b : Planet) :
  G = 6.67430e-11 /\
  (distance a b <> 0 ->
     let F := G * mass a * mass b / distance a b ^ 2 in
     attract a b = (F * ((x b - x a) / distance a b),
                    F * ((y b - y a) / distance a b)) /\
     sqrt (fst (attract a b) ^ 2 + snd (attract a b) ^ 2) = Rabs F /\
     (0 < mass a -> 0 < mass b ->
        sqrt (fst (attract a b) ^ 2 + snd (attract a b) ^ 2) = F)) /\
  (distance a b = 0 -> attract a b = (0, 0)).
Proof.
  split; [reflexivity|]. split; [|apply attract_zero].
  intros Hd F.
  assert (Hmag : sqrt (fst (attract a b) ^ 2 + snd (attract a b) ^ 2) = Rabs F).
  { rewrite attract_nonzero by exact Hd. fold F. cbn [fst snd].
    replace ((F * ((x b - x a) / distance a b)) ^ 2
             + (F * ((y b - y a) / distance a b)) ^ 2)
      with (Rsqr F * (((x b - x a) / distance a b) ^ 2
                  + ((y b - y a) / distance a b) ^ 2)) by (unfold Rsqr; ring).
    rewrite unit_vector_norm by exact Hd. rewrite Rmult_1_r.
    apply sqrt_Rsqr_abs. }
  split; [apply attract_nonzero, Hd|]. split; [exact Hmag|].
  intros Ha Hb. rewrite Hmag. apply Rabs_pos_eq.
  pose proof G_pos as HG. pose proof (distance_nonneg a b) as Hn.
  unfold F. apply Rlt_le, Rdiv_lt_0_compat.
  - apply Rmult_lt_0_compat; [apply Rmult_lt_0_compat|]; assumption.
  - apply pow_lt. lra.
Qed.

Lemma rocks_apart : distance rock_a rock_b <> 0.
Proof.
  intros H. apply distance_zero_iff in H. cbn in H. injection H as Hx Hy. lra.
Qed.

Lemma rock_a_on_itself : distance rock_a rock_a = 0.
Proof. apply distance_zero_iff. reflexivity. Qed.

Lemma attract_newton_witness :
  (let F := G * mass rock_a * mass rock_b / distance rock_a rock_b ^ 2 in
   attract rock_a rock_b =
     (F * ((x rock_b - x rock_a) / distance rock_a rock_b),
      F * ((y rock_b - y rock_a) / distance rock_a rock_b))) /\
  attract rock_a rock_a = (0, 0).
Proof.
  split.
  - exact (proj1 (proj1 (proj2 (attract_newton rock_a rock_b)) rocks_apart)).
  - exact (proj2 (proj2 (attract_newton rock_a rock_a)) rock_a_on_itself).
Defined.

(** C9.  For two bodies at distinct positions the force on [a] due to [b]
    and the force on [b] due to [a] sum to zero in each component, and have
    the same magnitude. *)
Theorem attract_opposite (a b : Planet) :
  (x a, y a) <> (x b, y b) ->
  fst (attract a b) + fst (attract b a) = 0 /\
  snd (attract a b) + snd (attract b a) = 0 /\
  sqrt (fst (attract a b) ^ 2 + snd (attract a b) ^ 2) =
  sqrt (fst (attract b a) ^ 2 + snd (attract b a) ^ 2).
Proof.
  intros Hpos.
  assert (Hd : distance a b <> 0).
  { intros H. apply Hpos, distance_zero_iff, H. }
  assert (Hd' : distance b a <> 0) by (rewrite distance_sym; exact Hd).
  rewrite (attract_nonzero a b Hd), (attract_nonzero b a Hd').
  rewrite (distance_sym b a). cbn [fst snd].
  split; [field; exact Hd|]. split; [field; exact Hd|].
  f_equal. field. exact Hd.
Qed.

Lemma attract_opposite_witness :
  fst (attract rock_a rock_b) + fst (attract rock_b rock_a) = 0 /\
  snd (attract rock_a rock_b) + snd (attract rock_b rock_a) = 0.
Proof.
  assert (H : (x rock_a, y rock_a) <> (x rock_b, y rock_b)).
  { cbn. intros H. injection H as Hx Hy. lra. }
  split.
  - exact (proj1 (attract_opposite rock_a rock_b H)).
  - exact (proj1 (proj2 (attract_opposite rock_a rock_b H))).
Defined.

(** ** Planet.collide *)

(** Resolves the comparisons of reals in the goal that linear arithmetic
    settles. *)
Ltac real_cases :=
  repeat match goal with
  | |- context [Req_dec_T ?a ?b] =>
      destruct (Req_dec_T a b); [try (exfalso; lra) | try (exfalso; lra)]
  | |- context [Rlt_dec ?a ?b] =>
      destruct (Rlt_dec a b); [try (exfalso; lra) | try (exfalso; lra)]
  | |- context [Rle_dec ?a ?b] =>
      destruct (Rle_dec a b); [try (exfalso; lra) | try (exfalso; lra)]
  | |- context [Rgt_dec ?a ?b] =>
      destruct (Rgt_dec a b); [try (exfalso; lra) | try (exfalso; lra)]
  end.

Lemma planet_eq (p q : Planet) :
  ident p = ident q -> x p = x q -> y p = y q -> radius p = radius q ->
  physical_radius p = physical_radius q -> color p = color q ->
  mass p = mass q -> name p = name q -> type_id p = type_id q ->
  orbit p = orbit q -> x_vel p = x_vel q -> y_vel p = y_vel q -> p = q.
Proof.
  destruct p, q. cbn. intros. subst. reflexivity.
Qed.

(** Equality of two bodies field by field; the fields that are not numbers
    are closed by computation, the numeric ones are left. *)
Ltac planet_fields q :=
  apply planet_eq; unfold q;
  cbn [ident x y radius physical_radius color mass name type_id orbit
       x_vel y_vel body set_vel Planet_init app];
  [ reflexivity | | | | | reflexivity | | reflexivity | reflexivity | | | ].

Lemma collide_inv (fresh : nat) (a b m : Planet) :
  collide fresh a b = Ok m ->
  mass a + mass b <> 0 /\
  exists root,
    pow_third (physical_radius a ^ 3 + physical_radius b ^ 3) = Ok root /\
    m = set_vel
          (Planet_init fresh ((x a + x b) / 2) ((y a + y b) / 2) (root * SCALE)
             (color a) (mass a + mass b) (name a ++ "+" ++ name b)%string
             (if Rgt_dec (mass a) (mass b) then type_id a else type_id b))
          ((x_vel a * mass a + x_vel b * mass b) / (mass a + mass b))
          ((y_vel a * mass a + y_vel b * mass b) / (mass a + mass b)).
Proof.
  unfold collide. intros H.
  destruct (Req_dec_T (mass a + mass b) 0) as [|Hm]; [discriminate|].
  split; [exact Hm|].
  destruct (pow_third (physical_radius a ^ 3 + physical_radius b ^ 3))
    as [root|e]; [|discriminate].
  exists root. split; [reflexivity|].
  cbn in H. injection H as <-. reflexivity.
Qed.

Lemma rock_radius (id : nat) (x0 y0 m vx vy : R) (n : string) (t : Z) :
  physical_radius (body id x0 y0 SCALE m vx vy n t) = 1.
Proof. cbn. field. apply SCALE_neq_0. Qed.

Lemma collide_rocks : collide 2 rock_a rock_b = Ok rock_ab.
Proof.
  unfold collide, pow_third, rock_a, rock_b. rewrite !rock_radius.
  cbn [mass x y x_vel y_vel name type_id color body set_vel Planet_init].
  real_cases. cbn [bind]. f_equal.
  planet_fields rock_ab; try lra.
  - do 2 f_equal. lra.
  - replace (1 ^ 3 + 1 ^ 3) with 2 by lra.
    field. apply SCALE_neq_0.
  - reflexivity.
Qed.

(** C1.  The mass of the body [collide] returns is the sum of the two
    masses. *)
Theorem collide_mass (fresh : nat) (a b m : Planet) :
  collide fresh a b = Ok m -> mass m = mass a + mass b.
Proof.
  intros H. apply collide_inv in H. destruct H as (_ & root & _ & ->).
  reflexivity.
Qed.

Lemma collide_mass_witness :
  collide 2 rock_a rock_b = Ok rock_ab /\
  mass rock_ab = mass rock_a + mass rock_b.
Proof.
  split.
  - exact collide_rocks.
  - exact (collide_mass 2 rock_a rock_b rock_ab collide_rocks).
Defined.

(** C2.  With positive masses the velocity of the merged body is the
    mass-weighted average of the two velocities in each component, and its
    momentum is the sum of the two momenta. *)
Theorem collide_momentum (fresh : nat) (a b m : Planet) :
  collide fresh a b = Ok m ->
  0 < mass a -> 0 < mass b ->
  x_vel m = (mass a * x_vel a + mass b * x_vel b) / (mass a + mass b) /\
  y_vel m = (mass a * y_vel a + mass b * y_vel b) / (mass a + mass b) /\
  mass m * x_vel m = mass a * x_vel a + mass b * x_vel b /\
  mass m * y_vel m = mass a * y_vel a + mass b * y_vel b.
Proof.
  intros H Ha Hb. apply collide_inv in H. destruct H as (Hm & root & _ & ->).
  cbn [x_vel y_vel mass set_vel Planet_init].
  repeat split; field; exact Hm.
Qed.

Lemma collide_momentum_witness :
  x_vel rock_ab
  = (mass rock_a * x_vel rock_a + mass rock_b * x_vel rock_b)
    / (mass rock_a + mass rock_b) /\
  mass rock_ab * x_vel rock_ab
  = mass rock_a * x_vel rock_a + mass rock_b * x_vel rock_b.
Proof.
  assert (Ha : 0 < mass rock_a) by (cbn; lra).
  assert (Hb : 0 < mass rock_b) by (cbn; lra).
  pose proof (collide_momentum 2 rock_a rock_b rock_ab collide_rocks Ha Hb)
    as (H1 & _ & H3 & _).
  split; assumption.
Defined.

(** C6, as the code has it.  The merged body takes the type of [self] when
    the mass of [self] is strictly greater, and the type of [other]
    otherwise, so also when the masses are equal; its name is the two names
    joined by [+]. *)
Theorem collide_type_name (fresh : nat) (a b m : Planet) :
  collide fresh a b = Ok m ->
  (mass a > mass b -> type_id m = type_id a) /\
  (mass b > mass a -> type_id m = type_id b) /\
  (mass a = mass b -> type_id m = type_id b) /\
  name m = (name a ++ "+" ++ name b)%string.
Proof.
  intros H. apply collide_inv in H. destruct H as (_ & root & _ & ->).
  cbn [type_id name set_vel Planet_init].
  destruct (Rgt_dec (mass a) (mass b)) as [Hgt | Hgt].
  - repeat split; try reflexivity; intros; exfalso; lra.
  - repeat split; try reflexivity; intros; exfalso; lra.
Qed.

Lemma collide_type_name_witness :
  collide 2 rock_a rock_b = Ok rock_ab /\
  type_id rock_ab = type_id rock_b /\
  name rock_ab = (name rock_a ++ "+" ++ name rock_b)%string.
Proof.
  pose proof (collide_type_name 2 rock_a rock_b rock_ab collide_rocks)
    as (_ & _ & H3 & H4).
  split; [exact collide_rocks|]. split; [|exact H4].
  apply H3. reflexivity.
Defined.

(** C6, as stated, fails: [rock_a] and [rock_b] have the same mass, and the
    merged body has the type of the right operand [rock_b], not of the left
    operand [rock_a]. *)
Lemma collide_tie_takes_right_type :
  collide 2 rock_a rock_b = Ok rock_ab /\
  mass rock_a = mass rock_b /\
  type_id rock_a = 1%Z /\
  type_id rock_b = 2%Z /\
  type_id rock_ab = 2%Z /\
  type_id rock_ab <> type_id rock_a.
Proof.
  split; [exact collide_rocks|]. cbn. repeat split; try reflexivity.
  discriminate.
Qed.

(** C8.  The physical radius of the merged body is the non-negative cube
    root of [rA ^ 3 + rB ^ 3] (the real power [(rA ^ 3 + rB ^ 3) ^ (1/3)]
    for positive radii), its render radius is that value times [SCALE], and
    its position is the midpoint of the two positions. *)
Theorem collide_radius_position (fresh : nat) (a b m : Planet) :
  collide fresh a b = Ok m ->
  physical_radius m ^ 3 = physical_radius a ^ 3 + physical_radius b ^ 3 /\
  0 <= physical_radius m /\
  (0 < physical_radius a -> 0 < physical_radius b ->
   physical_radius m
   = Rpower (physical_radius a ^ 3 + physical_radius b ^ 3) (1 / 3)) /\
  radius m = physical_radius m * SCALE /\
  x m = (x a + x b) / 2 /\
  y m = (y a + y b) / 2.
Proof.
  intros H. apply collide_inv in H. destruct H as (_ & root & Hroot & ->).
  cbn [physical_radius radius x y set_vel Planet_init].
  assert (Hs : root * SCALE / SCALE = root) by (field; apply SCALE_neq_0).
  rewrite Hs. destruct (pow_third_spec _ _ Hroot) as [Hcube Hpos].
  repeat split; try assumption; try reflexivity.
  intros Ha Hb. unfold pow_third in Hroot.
  destruct (Rlt_dec 0 (physical_radius a ^ 3 + physical_radius b ^ 3)) as [|Hn].
  - injection Hroot as <-. reflexivity.
  - exfalso. apply Hn.
    assert (0 < physical_radius a ^ 3) by (apply pow_lt; exact Ha).
    assert (0 < physical_radius b ^ 3) by (apply pow_lt; exact Hb).
    lra.
Qed.

Lemma collide_radius_position_witness :
  physical_radius rock_ab ^ 3
  = physical_radius rock_a ^ 3 + physical_radius rock_b ^ 3 /\
  physical_radius rock_ab
  = Rpower (physical_radius rock_a ^ 3 + physical_radius rock_b ^ 3) (1 / 3) /\
  radius rock_ab = physical_radius rock_ab * SCALE /\
  x rock_ab = (x rock_a + x rock_b) / 2.
Proof.
  pose proof (collide_radius_position 2 rock_a rock_b rock_ab collide_rocks)
    as (H1 & _ & H3 & H4 & H5 & _).
  split; [exact H1|]. split; [|split; assumption].
  apply H3; unfold rock_a, rock_b; rewrite rock_radius; lra.
Defined.

(** ** The list operations *)

Lemma same_refl (p : Planet) : same p p = true.
Proof. apply Nat.eqb_refl. Qed.

Lemma same_true_iff (p q : Planet) : same p q = true <-> ident p = ident q.
Proof. apply Nat.eqb_eq. Qed.

Lemma same_false_iff (p q : Planet) : same p q = false <-> ident p <> ident q.
Proof. apply Nat.eqb_neq. Qed.

(** A successful [remove] took out the first entry of that identity. *)
Lemma list_remove_split (q : Planet) (l l' : list Planet) :
  list_remove q l = Ok l' ->
  exists front q' back,
    l = (front ++ q' :: back)%list /\ l' = (front ++ back)%list /\
    ident q' = ident q /\
    Forall (fun p => ident p <> ident q) front.
Proof.
  revert l'. induction l as [|p rest IH]; intros l' H; [discriminate|].
  cbn in H. destruct (same p q) eqn:Hs.
  - injection H as <-. exists [], p, rest. repeat split.
    + apply same_true_iff, Hs.
    + constructor.
  - destruct (list_remove q rest) as [rest'|e]; [|discriminate].
    cbn in H. injection H as <-.
    destruct (IH rest' eq_refl) as (front & q' & back & -> & -> & Hq & Hf).
    exists (p :: front), q', back. repeat split; try assumption.
    constructor; [apply same_false_iff, Hs | exact Hf].
Qed.

Lemma list_remove_In (q : Planet) (l : list Planet) :
  (exists p, In p l /\ ident p = ident q) ->
  exists l', list_remove q l = Ok l'.
Proof.
  induction l as [|p rest IH]; intros (p0 & Hin & Hid); [destruct Hin|].
  cbn. destruct (same p q) eqn:Hs; [eexists; reflexivity|].
  destruct Hin as [-> | Hin].
  - apply same_false_iff in Hs. contradiction.
  - destruct IH as [l' ->]; [exists p0; split; assumption|].
    eexists. reflexivity.
Qed.

Lemma list_remove_length (q : Planet) (l l' : list Planet) :
  list_remove q l = Ok l' -> List.length l = S (List.length l').
Proof.
  intros H. apply list_remove_split in H.
  destruct H as (front & q' & back & -> & -> & _).
  rewrite !length_app. cbn. lia.
Qed.

Lemma list_remove_incl (q : Planet) (l l' : list Planet) (p : Planet) :
  list_remove q l = Ok l' -> In p l' -> In p l.
Proof.
  intros H Hin. apply list_remove_split in H.
  destruct H as (front & q' & back & -> & -> & _).
  apply in_app_or in Hin. apply in_or_app.
  destruct Hin; [left | right; right]; assumption.
Qed.

Lemma list_remove_keeps (q : Planet) (l l' : list Planet) (p : Planet) :
  list_remove q l = Ok l' -> In p l -> ident p <> ident q -> In p l'.
Proof.
  intros H Hin Hne. apply list_remove_split in H.
  destruct H as (front & q' & back & -> & -> & Hq & _).
  apply in_app_or in Hin. apply in_or_app.
  destruct Hin as [Hin | [<- | Hin]]; [left; assumption | | right; assumption].
  congruence.
Qed.

(** With distinct identities nothing of the removed identity is left. *)
Lemma list_remove_NoDup (q : Planet) (l l' : list Planet) :
  list_remove q l = Ok l' -> NoDup (map ident l) ->
  NoDup (map ident l') /\ ~ In (ident q) (map ident l').
Proof.
  intros H Hnd. apply list_remove_split in H.
  destruct H as (front & q' & back & -> & -> & Hq & _).
  rewrite map_app in *. cbn in Hnd. rewrite <- Hq. split.
  - eapply NoDup_remove_1, Hnd.
  - eapply NoDup_remove_2, Hnd.
Qed.

Lemma write_back_idents (p : Planet) (l : list Planet) :
  map ident (write_back p l) = map ident l.
Proof.
  induction l as [|q rest IH]; [reflexivity|].
  cbn. destruct (same q p) eqn:Hs; cbn.
  - apply same_true_iff in Hs. congruence.
  - congruence.
Qed.

Lemma write_back_length (p : Planet) (l : list Planet) :
  List.length (write_back p l) = List.length l.
Proof.
  rewrite <- (length_map ident), write_back_idents. apply length_map.
Qed.

Lemma write_back_In (p : Planet) (l : list Planet) (a : Planet) :
  In a (write_back p l) -> a = p \/ In a l.
Proof.
  induction l as [|q rest IH]; [intros []|].
  cbn. destruct (same q p).
  - intros [<- | Hin]; [left; reflexivity | right; right; exact Hin].
  - intros [<- | Hin]; [right; left; reflexivity|].
    destruct (IH Hin); [left | right; right]; assumption.
Qed.

Lemma write_back_Forall (P : Planet -> Prop) (p : Planet) (l : list Planet) :
  Forall P l -> P p -> Forall P (write_back p l).
Proof.
  intros Hl Hp. apply Forall_forall. intros a Ha.
  rewrite Forall_forall in Hl.
  destruct (write_back_In _ _ _ Ha) as [-> | Hin]; [exact Hp | apply Hl, Hin].
Qed.

(** ** The loop of update_position *)

Section ScanFacts.

Variable force_law : Planet -> Planet -> R * R.

Lemma scan_skip (self p : Planet) (rest : list Planet) (ax ay : R) :
  same self p = true ->
  scan_with force_law self (p :: rest) ax ay
  = scan_with force_law self rest ax ay.
Proof. intros H. cbn. rewrite H. reflexivity. Qed.

Lemma scan_hit (self p : Planet) (rest : list Planet) (ax ay : R) :
  same self p = false -> overlaps self p ->
  scan_with force_law self (p :: rest) ax ay = Collided p.
Proof.
  intros H Ho. cbn. rewrite H.
  destruct (Rle_dec (distance self p) (physical_radius self + physical_radius p));
    [reflexivity | contradiction].
Qed.

Lemma scan_force (self p : Planet) (rest : list Planet) (ax ay : R) :
  same self p = false -> ~ overlaps self p ->
  scan_with force_law self (p :: rest) ax ay
  = scan_with force_law self rest
      (ax + fst (force_law self p)) (ay + snd (force_law self p)).
Proof.
  intros H Ho. cbn. rewrite H.
  destruct (Rle_dec (distance self p) (physical_radius self + physical_radius p));
    [contradiction|].
  destruct (force_law self p). reflexivity.
Qed.

(** The loop returns on the first other body that overlaps [self]. *)
Lemma scan_collided (self q : Planet) (l : list Planet) (ax ay : R) :
  scan_with force_law self l ax ay = Collided q ->
  In q l /\ ident q <> ident self /\ overlaps self q.
Proof.
  revert ax ay. induction l as [|p rest IH]; intros ax ay H; [discriminate|].
  destruct (same self p) eqn:Hs.
  - rewrite scan_skip in H by exact Hs.
    destruct (IH _ _ H) as (Hin & Hne & Ho). repeat split; auto. right; exact Hin.
  - destruct (Rle_dec (distance self p) (physical_radius self + physical_radius p))
      as [Ho | Ho].
    + rewrite scan_hit in H by assumption. injection H as <-.
      repeat split; [left; reflexivity | | exact Ho].
      apply same_false_iff in Hs. congruence.
    + rewrite scan_force in H by assumption.
      destruct (IH _ _ H) as (Hin & Hne & Ho'). repeat split; auto.
      right; exact Hin.
Qed.

(** The loop runs to its end only when no other body overlaps [self]. *)
Lemma scan_forces (self : Planet) (l : list Planet) (ax ay fx fy : R) :
  scan_with force_law self l ax ay = Forces fx fy ->
  forall q, In q l -> ident q <> ident self -> ~ overlaps self q.
Proof.
  revert ax ay. induction l as [|p rest IH]; intros ax ay H q Hin Hne;
    [destruct Hin|].
  destruct (same self p) eqn:Hs.
  - rewrite scan_skip in H by exact Hs. destruct Hin as [<- | Hin].
    + apply same_true_iff in Hs. congruence.
    + eapply IH; eassumption.
  - destruct (Rle_dec (distance self p) (physical_radius self + physical_radius p))
      as [Ho | Ho].
    + rewrite scan_hit in H by assumption. discriminate.
    + rewrite scan_force in H by assumption. destruct Hin as [<- | Hin].
      * exact Ho.
      * eapply IH; eassumption.
Qed.

Lemma update_position_inv (self : Planet) (w w' : world) :
  update_position_with force_law self w = Ok w' ->
  (exists fx fy self',
      scan_with force_law self (planets w) 0 0 = Forces fx fy /\
      integrate self fx fy = Ok self' /\
      w' = {| planets := write_back self' (planets w);
              next_id := next_id w |})
  \/
  (exists q m l1 l2,
      scan_with force_law self (planets w) 0 0 = Collided q /\
      collide (next_id w) self q = Ok m /\
      list_remove self (planets w) = Ok l1 /\
      list_remove q l1 = Ok l2 /\
      w' = {| planets := (l2 ++ [m])%list; next_id := S (next_id w) |}).
Proof.
  unfold update_position_with. intros H.
  destruct (scan_with force_law self (planets w) 0 0) as [q | fx fy].
  - right.
    destruct (collide (next_id w) self q) as [m|] eqn:Hc; [|discriminate].
    destruct (list_remove self (planets w)) as [l1|] eqn:H1; [|discriminate].
    cbn in H. destruct (list_remove q l1) as [l2|] eqn:H2; [|discriminate].
    cbn in H. injection H as <-.
    exists q, m, l1, l2. repeat split; auto.
  - left.
    destruct (integrate self fx fy) as [self'|] eqn:Hi; [|discriminate].
    cbn in H. injection H as <-.
    exists fx, fy, self'. repeat split; auto.
Qed.

End ScanFacts.

(** ** One call of update_position *)

Lemma integrate_inv (self self' : Planet) (fx fy : R) :
  integrate self fx fy = Ok self' ->
  mass self <> 0 /\
  ident self' = ident self /\ mass self' = mass self /\
  physical_radius self' = physical_radius self /\
  x_vel self' = x_vel self + fx / mass self * TIMESTEP /\
  y_vel self' = y_vel self + fy / mass self * TIMESTEP /\
  x self' = x self + x_vel self' * TIMESTEP /\
  y self' = y self + y_vel self' * TIMESTEP /\
  orbit self' =
    (if Nat.ltb trail_limit (List.length (orbit self ++ [(x self', y self')]))
     then tl (orbit self ++ [(x self', y self')])
     else orbit self ++ [(x self', y self')])%list.
Proof.
  unfold integrate. intros H.
  destruct (Req_dec_T (mass self) 0) as [|Hm]; [discriminate|].
  injection H as <-. cbn. repeat split; auto.
Qed.

Lemma integrate_total (self : Planet) (fx fy : R) :
  mass self <> 0 -> exists self', integrate self fx fy = Ok self'.
Proof.
  intros Hm. unfold integrate.
  destruct (Req_dec_T (mass self) 0); [contradiction|]. eexists. reflexivity.
Qed.

Lemma cubes_nonneg (r1 r2 : R) : 0 <= r1 + r2 -> 0 <= r1 ^ 3 + r2 ^ 3.
Proof.
  intros H.
  replace (r1 ^ 3 + r2 ^ 3) with ((r1 + r2) * (r1 ^ 2 - r1 * r2 + r2 ^ 2)) by ring.
  apply Rmult_le_pos; [exact H | nra].
Qed.

(** Inside [update_position] the merge never takes a root of a negative
    number: overlapping bodies have a non-negative sum of radii. *)
Lemma overlap_cubes (a b : Planet) :
  overlaps a b -> 0 <= physical_radius a ^ 3 + physical_radius b ^ 3.
Proof.
  intros H. apply cubes_nonneg. unfold overlaps in H.
  pose proof (distance_nonneg a b). lra.
Qed.

Section UpdateFacts.

Variable force_law : Planet -> Planet -> R * R.

(** What holds of every listed body still holds after the call, when
    integration keeps it and the merged body has it. *)
Lemma update_position_Forall (P : Planet -> Prop) (self : Planet) (w w' : world) :
  (forall fx fy self', P self -> integrate self fx fy = Ok self' -> P self') ->
  (forall q m, P self -> P q -> collide (next_id w) self q = Ok m -> P m) ->
  In self (planets w) -> Forall P (planets w) ->
  update_position_with force_law self w = Ok w' -> Forall P (planets w').
Proof.
  intros Hint Hcol Hin Hall H.
  pose proof Hall as Hall'. rewrite Forall_forall in Hall'.
  destruct (update_position_inv _ _ _ _ H)
    as [(fx & fy & self' & _ & Hi & ->) | (q & m & l1 & l2 & Hs & Hc & H1 & H2 & ->)].
  - cbn. apply write_back_Forall; [exact Hall|].
    eapply Hint; [apply Hall', Hin | exact Hi].
  - cbn. apply scan_collided in Hs. destruct Hs as (Hq & _ & _).
    apply Forall_app. split.
    + apply Forall_forall. intros p Hp. apply Hall'.
      eapply list_remove_incl; [exact H1|].
      eapply list_remove_incl; [exact H2 | exact Hp].
    + constructor; [|constructor].
      eapply Hcol; [apply Hall', Hin | apply Hall', Hq | exact Hc].
Qed.

Lemma update_position_length (self : Planet) (w w' : world) :
  update_position_with force_law self w = Ok w' ->
  (List.length (planets w') <= List.length (planets w))%nat.
Proof.
  intros H.
  destruct (update_position_inv _ _ _ _ H)
    as [(fx & fy & self' & _ & _ & ->) | (q & m & l1 & l2 & _ & _ & H1 & H2 & ->)].
  - cbn. rewrite write_back_length. lia.
  - cbn. apply list_remove_length in H1, H2. rewrite length_app. cbn. lia.
Qed.

End UpdateFacts.

Lemma update_position_positive (self : Planet) (w w' : world) :
  In self (planets w) -> positive_masses w ->
  update_position self w = Ok w' -> positive_masses w'.
Proof.
  intros Hin Hpos H. unfold positive_masses in *.
  eapply update_position_Forall; [| | exact Hin | exact Hpos | exact H].
  - intros fx fy self' Hp Hi. apply integrate_inv in Hi.
    destruct Hi as (_ & _ & -> & _). exact Hp.
  - intros q m Hp Hq Hc. apply collide_inv in Hc.
    destruct Hc as (_ & root & _ & ->). cbn. lra.
Qed.

Lemma nth_error_some_lt (A : Type) (l : list A) (i : nat) (a : A) :
  nth_error l i = Some a -> (i < List.length l)%nat.
Proof. intros H. apply nth_error_Some. congruence. Qed.

(** The loop has ended by itself once [length planets - i] iterations are
    allowed: more fuel changes nothing. *)
Lemma frame_loop_fuel (f1 f2 : nat) (paused : bool) (d : option nat)
    (i : nat) (w : world) :
  (List.length (planets w) - i <= f1)%nat ->
  (List.length (planets w) - i <= f2)%nat ->
  frame_loop f1 paused d i w = frame_loop f2 paused d i w.
Proof.
  revert f2 i w. induction f1 as [|f1 IH]; intros f2 i w H1 H2.
  - destruct f2 as [|f2]; [reflexivity|]. cbn.
    destruct (nth_error (planets w) i) eqn:Hn; [|reflexivity].
    apply nth_error_some_lt in Hn. lia.
  - destruct f2 as [|f2]; cbn.
    + destruct (nth_error (planets w) i) eqn:Hn; [|reflexivity].
      apply nth_error_some_lt in Hn. lia.
    + destruct (nth_error (planets w) i) as [p|] eqn:Hn; [|reflexivity].
      destruct (negb paused || is_dragging p d).
      * destruct (update_position p w) as [w'|e] eqn:Hu; [|reflexivity].
        cbn. apply update_position_length in Hu. apply IH; lia.
      * apply IH; lia.
Qed.

Section FrameInvariant.

Variable Inv : world -> Prop.

Hypothesis Inv_update : forall self w w',
  In self (planets w) -> Inv w -> update_position self w = Ok w' -> Inv w'.

Lemma frame_loop_invariant (fuel : nat) (paused : bool) (d : option nat)
    (i : nat) (w w' : world) :
  Inv w -> frame_loop fuel paused d i w = Ok w' -> Inv w'.
Proof.
  revert i w. induction fuel as [|fuel IH]; intros i w HI H; cbn in H.
  - injection H as <-. exact HI.
  - destruct (nth_error (planets w) i) as [p|] eqn:Hn.
    + destruct (negb paused || is_dragging p d).
      * destruct (update_position p w) as [w1|e] eqn:Hu; [|discriminate].
        cbn in H. apply (IH _ _ (Inv_update _ _ _ (nth_error_In _ _ Hn) HI Hu) H).
      * apply (IH _ _ HI H).
    + injection H as <-. exact HI.
Qed.

Lemma frame_invariant (paused : bool) (d : option nat) (w w' : world) :
  Inv w -> frame paused d w = Ok w' -> Inv w'.
Proof. apply frame_loop_invariant. Qed.

Lemma run_invariant (inputs : list (bool * option nat)) (w w' : world) :
  Inv w -> run inputs w = Ok w' -> Inv w'.
Proof.
  revert w. induction inputs as [|[paused d] rest IH]; intros w HI H; cbn in H.
  - injection H as <-. exact HI.
  - destruct (frame paused d w) as [w1|e] eqn:Hf; [|discriminate].
    cbn in H. apply (IH _ (frame_invariant _ _ _ _ HI Hf) H).
Qed.

End FrameInvariant.

(** ** Bodies on a horizontal line *)

Lemma body_radius (id : nat) (x0 y0 r m vx vy : R) (n : string) (t : Z) :
  physical_radius (body id x0 y0 (r * SCALE) m vx vy n t) = r.
Proof. cbn. field. apply SCALE_neq_0. Qed.

Lemma distance_axis (a b : Planet) :
  y a = y b -> distance a b = Rabs (x b - x a).
Proof.
  intros Hy. unfold distance. cbv zeta. rewrite Hy.
  replace ((x b - x a) ^ 2 + (y b - y b) ^ 2) with (Rsqr (x b - x a))
    by (unfold Rsqr; ring).
  apply sqrt_Rsqr_abs.
Qed.

(** ** The first frame of the two overlapping bodies *)

Lemma impact_overlaps : overlaps impact_a impact_b.
Proof.
  unfold overlaps. rewrite distance_axis by reflexivity.
  unfold impact_a, impact_b. rewrite !body_radius. cbn.
  rewrite Rabs_pos_eq; lra.
Qed.

Lemma collide_impact : collide 2 impact_a impact_b = Ok impact_merged.
Proof.
  unfold collide, pow_third, impact_a, impact_b. rewrite !body_radius.
  cbn [mass x y x_vel y_vel name type_id color body set_vel Planet_init].
  real_cases. cbn [bind]. f_equal.
  planet_fields impact_merged; try lra.
  - field. apply SCALE_neq_0.
  - reflexivity.
Qed.

Lemma update_impact :
  update_position impact_a impact
  = Ok {| planets := [impact_merged]; next_id := 3 |}.
Proof.
  unfold update_position, update_position_with, impact. cbn [planets next_id].
  rewrite scan_skip by reflexivity.
  rewrite scan_hit by (reflexivity || apply impact_overlaps).
  rewrite collide_impact. reflexivity.
Qed.

Lemma frame_impact :
  frame false None impact = Ok {| planets := [impact_merged]; next_id := 3 |}.
Proof.
  unfold frame. change (List.length (planets impact)) with 2%nat.
  cbn [frame_loop]. change (nth_error (planets impact) 0) with (Some impact_a).
  cbn [negb orb]. rewrite update_impact. reflexivity.
Qed.

(** ** The degenerate branch of attract inside update_position *)

Lemma attract_with_zero_case_attract (self other : Planet) :
  attract_with_zero_case (0, 0) self other = attract self other.
Proof. reflexivity. Qed.

Lemma attract_with_zero_case_nonzero (z : R * R) (self other : Planet) :
  distance self other <> 0 ->
  attract_with_zero_case z self other = attract self other.
Proof.
  intros Hd. unfold attract_with_zero_case, attract. fold (distance self other).
  destruct (Req_dec_T (distance self other) 0); [contradiction | reflexivity].
Qed.

(** Where the collision test fails the distance is not zero. *)
Lemma no_overlap_distance (self q : Planet) :
  0 < physical_radius self -> 0 < physical_radius q ->
  ~ overlaps self q -> distance self q <> 0.
Proof.
  intros Hs Hq Ho Hd. apply Ho. unfold overlaps. rewrite Hd. lra.
Qed.

Lemma scan_zero_case (z : R * R) (self : Planet) (l : list Planet) (ax ay : R) :
  0 < physical_radius self -> Forall (fun p => 0 < physical_radius p) l ->
  scan_with (attract_with_zero_case z) self l ax ay = scan self l ax ay.
Proof.
  intros Hs Hl. revert ax ay. unfold scan.
  induction Hl as [|p rest Hp Hrest IH]; intros ax ay; [reflexivity|].
  destruct (same self p) eqn:Hsame.
  - rewrite !scan_skip by exact Hsame. apply IH.
  - destruct (Rle_dec (distance self p) (physical_radius self + physical_radius p))
      as [Ho | Ho].
    + rewrite !scan_hit by assumption. reflexivity.
    + rewrite !scan_force by assumption.
      rewrite attract_with_zero_case_nonzero
        by (apply no_overlap_distance; assumption).
      apply IH.
Qed.

(** C10.  In [update_position] on bodies with strictly positive physical
    radii the [distance == 0] branch of [attract] is not taken: wherever the
    collision test of line 131 lets the loop go on to [attract], the distance
    is not zero, so whatever value that branch would return, the call of
    [update_position] gives the same result. *)
Theorem zero_branch_not_taken (z : R * R) (self : Planet) (w : world) :
  0 < physical_radius self ->
  Forall (fun p => 0 < physical_radius p) (planets w) ->
  (forall q, In q (planets w) -> ~ overlaps self q -> distance self q <> 0) /\
  update_position_with (attract_with_zero_case z) self w
  = update_position self w.
Proof.
  intros Hs Hl. split.
  - intros q Hq Ho. rewrite Forall_forall in Hl.
    apply no_overlap_distance; auto.
  - unfold update_position, update_position_with.
    rewrite scan_zero_case by assumption. reflexivity.
Qed.

Lemma zero_branch_not_taken_witness :
  update_position_with (attract_with_zero_case (1, 1)) rock_a rocks
  = update_position rock_a rocks.
Proof.
  assert (Ha : 0 < physical_radius rock_a).
  { unfold rock_a. rewrite rock_radius. lra. }
  assert (Hl : Forall (fun p => 0 < physical_radius p) (planets rocks)).
  { unfold rocks. cbn [planets].
    apply Forall_cons; [|apply Forall_cons; [|apply Forall_nil]];
      unfold rock_a, rock_b; rewrite rock_radius; lra. }
  exact (proj2 (zero_branch_not_taken (1, 1) rock_a rocks Ha Hl)).
Defined.

(** ** Frames with the pause flag set *)

(** The body the paused loop still updates: the dragged one, if listed. *)
Lemma paused_loop_skips (fuel : nat) (d : option nat) (i : nat) (w : world) :
  (forall j p, (i <= j)%nat -> nth_error (planets w) j = Some p ->
               is_dragging p d = false) ->
  frame_loop fuel true d i w = Ok w.
Proof.
  revert i. induction fuel as [|fuel IH]; intros i H; [reflexivity|].
  cbn. destruct (nth_error (planets w) i) as [p|] eqn:Hn; [|reflexivity].
  rewrite (H i p (le_n i) Hn). apply IH.
  intros j q Hj. apply H. lia.
Qed.

Lemma ident_nth_error (l : list Planet) (k : nat) (q : Planet) :
  nth_error l k = Some q -> nth_error (map ident l) k = Some (ident q).
Proof. intros H. rewrite nth_error_map, H. reflexivity. Qed.

(** After [update_position] on the body at index [j], no later entry of the
    list has the identity of that body. *)
Lemma update_position_later (self : Planet) (j : nat) (w w' : world) :
  wf_ids w -> nth_error (planets w) j = Some self ->
  update_position self w = Ok w' ->
  forall k q, (j < k)%nat -> nth_error (planets w') k = Some q ->
              ident q <> ident self.
Proof.
  intros [Hnd Hlt] Hj Hu k q Hk Hq Heq.
  destruct (update_position_inv _ _ _ _ Hu)
    as [(fx & fy & self' & _ & _ & ->) | (p & m & l1 & l2 & _ & Hc & H1 & H2 & ->)].
  - cbn in Hq. apply ident_nth_error in Hq. rewrite write_back_idents in Hq.
    apply ident_nth_error in Hj. rewrite Heq, <- Hj in Hq.
    rewrite NoDup_nth_error in Hnd. apply Hnd in Hq; [lia|].
    apply nth_error_Some. rewrite Hq, Hj. discriminate.
  - cbn in Hq. apply nth_error_In in Hq. apply in_app_or in Hq.
    destruct Hq as [Hq | [<- | []]].
    + destruct (list_remove_NoDup _ _ _ H1 Hnd) as [_ Hout].
      apply Hout. rewrite <- Heq. apply in_map.
      eapply list_remove_incl; eassumption.
    + apply collide_inv in Hc. destruct Hc as (_ & root & _ & ->).
      cbn in Heq. rewrite Forall_forall in Hlt.
      pose proof (Hlt _ (nth_error_In _ _ Hj)). lia.
Qed.

Lemma paused_loop_dragged (fuel : nat) (i j : nat) (self : Planet) (w : world) :
  wf_ids w -> nth_error (planets w) j = Some self ->
  (i <= j)%nat -> (j - i < fuel)%nat ->
  frame_loop fuel true (Some (ident self)) i w = update_position self w.
Proof.
  intros Hwf Hj. revert i.
  induction fuel as [|fuel IH]; intros i Hij Hfuel; [lia|].
  cbn [frame_loop]. destruct (nth_error (planets w) i) as [p|] eqn:Hn.
  - destruct (Nat.eq_dec i j) as [-> | Hne].
    + rewrite Hj in Hn. injection Hn as <-.
      cbn [negb orb is_dragging]. rewrite Nat.eqb_refl.
      destruct (update_position self w) as [w'|e] eqn:Hu; [|reflexivity].
      cbn [bind]. apply paused_loop_skips.
      intros k q Hk Hq. cbn [is_dragging]. apply Nat.eqb_neq.
      apply (update_position_later self j w w' Hwf Hj Hu k q); [lia | exact Hq].
    + assert (Hp : is_dragging p (Some (ident self)) = false).
      { cbn [is_dragging]. apply Nat.eqb_neq. intros Hp. apply Hne.
        destruct Hwf as [Hnd _]. rewrite NoDup_nth_error in Hnd.
        apply Hnd.
        - apply nth_error_Some. rewrite (ident_nth_error _ _ _ Hn). discriminate.
        - rewrite (ident_nth_error _ _ _ Hn), (ident_nth_error _ _ _ Hj).
          congruence. }
      cbn [negb orb]. rewrite Hp. apply IH; lia.
  - exfalso. apply nth_error_None in Hn.
    apply nth_error_some_lt in Hj. lia.
Qed.

Lemma write_back_keeps (s p : Planet) (l : list Planet) :
  In p l -> ident p <> ident s -> In p (write_back s l).
Proof.
  intros Hin Hne. induction l as [|q rest IH]; [destruct Hin|].
  cbn. destruct (same q s) eqn:Hs.
  - destruct Hin as [-> | Hin]; [|right; exact Hin].
    apply same_true_iff in Hs. contradiction.
  - destruct Hin as [-> | Hin]; [left; reflexivity | right; apply IH, Hin].
Qed.

(** A call of [update_position] leaves every other body as it is, or merges
    it away. *)
Lemma update_position_others (self p : Planet) (w w' : world) :
  wf_ids w -> In self (planets w) -> update_position self w = Ok w' ->
  In p (planets w) -> ident p <> ident self ->
  In p (planets w') \/ ~ In (ident p) (map ident (planets w')).
Proof.
  intros [Hnd Hlt] Hself Hu Hp Hne.
  destruct (update_position_inv _ _ _ _ Hu)
    as [(fx & fy & self' & _ & Hi & ->) | (q & m & l1 & l2 & _ & Hc & H1 & H2 & ->)].
  - left. cbn. apply write_back_keeps; [exact Hp|].
    apply integrate_inv in Hi. destruct Hi as (_ & -> & _). exact Hne.
  - cbn. destruct (Nat.eq_dec (ident p) (ident q)) as [Heq | Hpq].
    + right. rewrite map_app, in_app_iff. intros [Hin | [Hin | []]].
      * destruct (list_remove_NoDup _ _ _ H1 Hnd) as [Hnd1 _].
        destruct (list_remove_NoDup _ _ _ H2 Hnd1) as [_ Hout].
        apply Hout. rewrite <- Heq. exact Hin.
      * apply collide_inv in Hc. destruct Hc as (_ & root & _ & ->).
        cbn in Hin. rewrite Forall_forall in Hlt.
        pose proof (Hlt _ Hp). lia.
    + left. apply in_or_app. left.
      eapply list_remove_keeps; [exact H2 | | exact Hpq].
      eapply list_remove_keeps; eassumption.
Qed.

(** C5, as the code has it.  In a frame with the pause flag set the loop
    calls [update_position] on the dragged body alone (on no body when none
    is dragged or the dragged one is not listed): the frame is that one
    call, made on the whole collection, whose other bodies are the other
    operands of its collision tests and forces.  Every body that is not the
    dragged one is left untouched (no force, velocity, position or trail
    update) or is merged away by the dragged one. *)
Theorem paused_frame (d : option nat) (w : world) :
  wf_ids w ->
  frame true d w
  = match d with
    | Some id =>
        match find (fun p => Nat.eqb (ident p) id) (planets w) with
        | Some self => update_position self w
        | None => Ok w
        end
    | None => Ok w
    end
  /\
  (forall w' p, frame true d w = Ok w' ->
     In p (planets w) -> is_dragging p d = false ->
     In p (planets w') \/ ~ In (ident p) (map ident (planets w'))).
Proof.
  intros Hwf.
  assert (Heq : frame true d w
    = match d with
      | Some id =>
          match find (fun p => Nat.eqb (ident p) id) (planets w) with
          | Some self => update_position self w
          | None => Ok w
          end
      | None => Ok w
      end).
  { unfold frame. destruct d as [id|].
    - destruct (find (fun p => Nat.eqb (ident p) id) (planets w)) as [self|] eqn:Hf.
      + apply find_some in Hf. destruct Hf as [Hin Hid].
        apply Nat.eqb_eq in Hid. subst id.
        destruct (In_nth_error _ _ Hin) as [j Hj].
        apply (paused_loop_dragged _ 0 j); auto; [lia|].
        apply nth_error_some_lt in Hj. lia.
      + apply paused_loop_skips. intros j p _ Hj. cbn.
        apply (find_none _ _ Hf). eapply nth_error_In, Hj.
    - apply paused_loop_skips. reflexivity. }
  split; [exact Heq|].
  intros w' p Hfr Hp Hdrag. rewrite Heq in Hfr.
  destruct d as [id|]; [|injection Hfr as <-; left; exact Hp].
  destruct (find (fun p => Nat.eqb (ident p) id) (planets w)) as [self|] eqn:Hf;
    [|injection Hfr as <-; left; exact Hp].
  apply find_some in Hf. destruct Hf as [Hin Hid]. apply Nat.eqb_eq in Hid.
  apply (update_position_others self p w w' Hwf Hin Hfr Hp).
  cbn in Hdrag. apply Nat.eqb_neq in Hdrag. congruence.
Qed.

Lemma rocks_wf : wf_ids rocks.
Proof.
  split.
  - cbn. repeat constructor; cbn; intuition congruence.
  - unfold rocks. cbn [planets next_id].
    apply Forall_cons; [|apply Forall_cons; [|apply Forall_nil]]; cbn; lia.
Qed.

Lemma paused_frame_witness :
  frame true (Some 1%nat) rocks = update_position rock_b rocks.
Proof. exact (proj1 (paused_frame (Some 1%nat) rocks rocks_wf)). Defined.

Lemma integrate_drifter : integrate drifter 0 0 = Ok drifter_moved.
Proof.
  unfold integrate, drifter.
  cbn [mass x y x_vel y_vel body set_vel Planet_init orbit app List.length].
  real_cases. f_equal.
  planet_fields drifter_moved; unfold TIMESTEP; try lra.
  - field. apply SCALE_neq_0.
  - cbn [Nat.ltb Nat.leb List.length trail_limit]. do 2 f_equal; lra.
Qed.

(** C5, as stated, fails: with the pause flag set and [drifter] being
    dragged, the frame integrates [drifter]: its position moves by
    [velocity * TIMESTEP] and its trail takes the new position. *)
Lemma dragged_body_is_integrated :
  frame true (Some 0%nat) drifting
  = Ok {| planets := [drifter_moved]; next_id := 1 |} /\
  is_dragging drifter (Some 0%nat) = true /\
  x drifter = 0 /\ x drifter_moved = 86400 /\
  orbit drifter = [] /\ orbit drifter_moved = [(86400, 0)].
Proof.
  split; [|repeat split; reflexivity].
  unfold frame. change (List.length (planets drifting)) with 1%nat.
  cbn [frame_loop]. change (nth_error (planets drifting) 0) with (Some drifter).
  change (negb true || is_dragging drifter (Some 0%nat)) with true.
  unfold update_position, update_position_with, drifting. cbn [planets next_id].
  rewrite scan_skip by reflexivity. cbn [scan_with].
  rewrite integrate_drifter. reflexivity.
Qed.

Lemma attract_axis (a b : Planet) :
  y a = y b -> x a <> x b ->
  attract a b
  = (G * mass a * mass b / (x b - x a) ^ 2 * ((x b - x a) / Rabs (x b - x a)), 0).
Proof.
  intros Hy Hx.
  assert (Hd : distance a b = Rabs (x b - x a)) by (apply distance_axis, Hy).
  assert (Hn : Rabs (x b - x a) <> 0) by (apply Rabs_no_R0; lra).
  rewrite attract_nonzero by (rewrite Hd; exact Hn).
  rewrite Hd, Hy. f_equal.
  - f_equal. f_equal. rewrite <- Rsqr_pow2, <- Rsqr_abs, Rsqr_pow2. reflexivity.
  - field. exact Hn.
Qed.

(** ** A frame that ends with two overlapping bodies *)

Lemma update_position_integrates (self self' : Planet) (w : world) (fx fy : R) :
  scan self (planets w) 0 0 = Forces fx fy ->
  integrate self fx fy = Ok self' ->
  update_position self w
  = Ok {| planets := write_back self' (planets w); next_id := next_id w |}.
Proof.
  intros Hs Hi. unfold update_position, update_position_with.
  unfold scan in Hs. rewrite Hs, Hi. reflexivity.
Qed.

Lemma G_small : 0 < G < 1e-10.
Proof. unfold G. lra. Qed.

Lemma attract_still_mover : attract still mover = (G / 86400 ^ 2, 0).
Proof.
  rewrite attract_axis; cbn [x y mass still mover body set_vel Planet_init]; try lra.
  rewrite Rabs_pos_eq by lra. f_equal. field.
Qed.

Lemma update_still :
  update_position still approach
  = Ok {| planets := [still_after; mover]; next_id := 2 |}.
Proof.
  rewrite (update_position_integrates still still_after approach (0 + G / 86400 ^ 2) (0 + 0)).
  - reflexivity.
  - unfold scan, approach. cbn [planets].
    rewrite scan_skip by reflexivity.
    rewrite scan_force.
    + rewrite attract_still_mover. reflexivity.
    + reflexivity.
    + unfold overlaps. rewrite distance_axis by reflexivity.
      unfold still, mover. rewrite !rock_radius.
      cbn [x body set_vel Planet_init].
      rewrite Rabs_pos_eq by lra. lra.
  - unfold integrate, still.
    cbn [mass x y x_vel y_vel body set_vel Planet_init orbit app List.length].
    real_cases. f_equal.
    planet_fields still_after; unfold TIMESTEP; try lra.
    + field. apply SCALE_neq_0.
    + cbn [Nat.ltb Nat.leb List.length trail_limit]. do 2 f_equal; lra.
Qed.

Lemma attract_mover_still :
  attract mover still_after = (- (G / (86400 - G) ^ 2), 0).
Proof.
  pose proof G_small as HG.
  rewrite attract_axis; cbn [x y mass still_after mover body set_vel Planet_init];
    try lra.
  rewrite Rabs_left by lra. f_equal. field. lra.
Qed.

Lemma update_mover :
  update_position mover {| planets := [still_after; mover]; next_id := 2 |}
  = Ok {| planets := [still_after; mover_after]; next_id := 2 |}.
Proof.
  pose proof G_small as HG.
  rewrite (update_position_integrates mover mover_after _
             (0 + - (G / (86400 - G) ^ 2)) (0 + 0)).
  - reflexivity.
  - unfold scan. cbn [planets].
    rewrite scan_force.
    + rewrite attract_mover_still. cbn [fst snd].
      rewrite scan_skip by reflexivity. reflexivity.
    + reflexivity.
    + unfold overlaps. rewrite distance_axis by reflexivity.
      unfold mover. rewrite rock_radius.
      cbn [x physical_radius still_after body set_vel Planet_init].
      rewrite Rabs_left by lra. lra.
  - unfold integrate, mover.
    cbn [mass x y x_vel y_vel body set_vel Planet_init orbit app List.length].
    real_cases. f_equal.
    planet_fields mover_after; unfold TIMESTEP; try lra.
    + field. apply SCALE_neq_0.
    + cbn [Nat.ltb Nat.leb List.length trail_limit]. do 2 f_equal; lra.
Qed.

Lemma frame_approach :
  frame false None approach
  = Ok {| planets := [still_after; mover_after]; next_id := 2 |}.
Proof.
  unfold frame. change (List.length (planets approach)) with 2%nat.
  cbn [frame_loop]. change (nth_error (planets approach) 0) with (Some still).
  cbn [negb orb]. rewrite update_still. cbn [bind planets nth_error].
  rewrite update_mover. reflexivity.
Qed.

Lemma approach_apart : ~ overlaps still mover.
Proof.
  unfold overlaps. rewrite distance_axis by reflexivity.
  unfold still, mover. rewrite !rock_radius.
  cbn [x body set_vel Planet_init]. rewrite Rabs_pos_eq by lra. lra.
Qed.

Lemma after_overlap : overlaps still_after mover_after.
Proof.
  pose proof G_small as HG.
  unfold overlaps. rewrite distance_axis by reflexivity.
  cbn [x physical_radius still_after mover_after].
  assert (Hq : 0 <= G * 86400 ^ 2 / (86400 - G) ^ 2 <= 1).
  { assert (Hden : 0 < (86400 - G) ^ 2) by (apply pow_lt; lra).
    split.
    - apply Rlt_le, Rdiv_lt_0_compat; [|exact Hden]. nra.
    - apply (Rmult_le_reg_r ((86400 - G) ^ 2)); [exact Hden|].
      unfold Rdiv. rewrite Rmult_assoc, Rinv_l by lra. nra. }
  rewrite Rabs_left by lra. lra.
Qed.

(** C4, as stated, fails: [still] and [mover] do not overlap; the frame
    integrates [still], then tests [mover] against it (no overlap yet) and
    integrates [mover], which lands within the radii of [still]; the frame
    ends with the two bodies overlapping. *)
Lemma frame_leaves_overlap :
  ~ overlaps still mover /\
  frame false None approach
  = Ok {| planets := [still_after; mover_after]; next_id := 2 |} /\
  ident still_after <> ident mover_after /\
  overlaps still_after mover_after.
Proof.
  split; [exact approach_apart|]. split; [exact frame_approach|].
  split; [discriminate | exact after_overlap].
Qed.

Lemma write_back_In_self (s : Planet) (l : list Planet) :
  (exists p, In p l /\ ident p = ident s) -> In s (write_back s l).
Proof.
  induction l as [|q rest IH]; intros (p & Hin & Hid); [destruct Hin|].
  cbn. destruct (same q s) eqn:Hs; [left; reflexivity|].
  right. apply IH. destruct Hin as [-> | Hin].
  - apply same_false_iff in Hs. contradiction.
  - exists p. split; assumption.
Qed.

Lemma impact_wf : wf_ids impact.
Proof.
  split.
  - cbn. repeat constructor; cbn; intuition congruence.
  - unfold impact. cbn [planets next_id].
    apply Forall_cons; [|apply Forall_cons; [|apply Forall_nil]]; cbn; lia.
Qed.

(** * Further properties of the simulation core *)

(** ** Invariants of the collection over frames *)

Lemma update_position_wf (self : Planet) (w w' : world) :
  In self (planets w) -> wf_ids w -> update_position self w = Ok w' -> wf_ids w'.
Proof.
  intros Hin [Hnd Hlt] Hu.
  destruct (update_position_inv _ _ _ _ Hu)
    as [(fx & fy & self' & _ & Hi & ->) | (q & m & l1 & l2 & Hs & Hc & H1 & H2 & ->)].
  - apply integrate_inv in Hi. destruct Hi as (_ & Hid & _).
    split; cbn [planets next_id].
    + rewrite write_back_idents. exact Hnd.
    + apply write_back_Forall; [exact Hlt|]. rewrite Hid.
      rewrite Forall_forall in Hlt. apply Hlt, Hin.
  - assert (Hm : ident m = next_id w).
    { apply collide_inv in Hc. destruct Hc as (_ & root & _ & ->). reflexivity. }
    destruct (list_remove_NoDup _ _ _ H1 Hnd) as [Hnd1 _].
    destruct (list_remove_NoDup _ _ _ H2 Hnd1) as [Hnd2 _].
    assert (Hl2 : forall p, In p l2 -> (ident p < next_id w)%nat).
    { intros p Hp. rewrite Forall_forall in Hlt. apply Hlt.
      eapply list_remove_incl; [exact H1|].
      eapply list_remove_incl; [exact H2 | exact Hp]. }
    split; cbn [planets next_id].
    + rewrite map_app. cbn [map]. apply NoDup_app.
      * exact Hnd2.
      * repeat constructor. intros [].
      * intros a Ha [<- | []]. apply in_map_iff in Ha.
        destruct Ha as (p & Hp & Hpin). specialize (Hl2 _ Hpin). lia.
    + apply Forall_app. split.
      * apply Forall_forall. intros p Hp. specialize (Hl2 _ Hp). lia.
      * constructor; [lia | constructor].
Qed.

(** X3.  Frames keep every object listed once: the identities of the listed
    bodies stay distinct, and a merged body gets an identity no body had
    before. *)
Theorem run_keeps_identities (inputs : list (bool * option nat)) (w w' : world) :
  wf_ids w -> run inputs w = Ok w' ->
  wf_ids w' /\ (next_id w <= next_id w')%nat.
Proof.
  intros Hwf Hrun.
  refine (run_invariant
            (fun w0 => wf_ids w0 /\ (next_id w <= next_id w0)%nat)
            _ inputs w w' (conj Hwf (le_n _)) Hrun).
  intros self w0 w1 Hin [H0 Hle] Hu. split.
  - eapply update_position_wf; eassumption.
  - destruct (update_position_inv _ _ _ _ Hu)
      as [(fx & fy & self' & _ & _ & ->) | (q & m & l1 & l2 & _ & _ & _ & _ & ->)];
      cbn [next_id]; lia.
Qed.

Lemma run_keeps_identities_witness :
  wf_ids {| planets := [impact_merged]; next_id := 3 |}.
Proof.
  assert (Hrun : run [(false, None)] impact
                 = Ok {| planets := [impact_merged]; next_id := 3 |}).
  { cbn [run]. rewrite frame_impact. reflexivity. }
  exact (proj1 (run_keeps_identities _ _ _ impact_wf Hrun)).
Defined.

(** X5.  The number of listed bodies never grows. *)
Theorem run_length (inputs : list (bool * option nat)) (w w' : world) :
  run inputs w = Ok w' ->
  (List.length (planets w') <= List.length (planets w))%nat.
Proof.
  intros Hrun.
  refine (run_invariant
            (fun w0 => (List.length (planets w0) <= List.length (planets w))%nat)
            _ inputs w w' (le_n _) Hrun).
  intros self w0 w1 Hin H0 Hu. apply update_position_length in Hu. lia.
Qed.

Lemma run_length_witness :
  (List.length [impact_merged] <= List.length (planets impact))%nat.
Proof.
  assert (Hrun : run [(false, None)] impact
                 = Ok {| planets := [impact_merged]; next_id := 3 |}).
  { cbn [run]. rewrite frame_impact. reflexivity. }
  exact (run_length _ _ _ Hrun).
Defined.

(** ** Conservation of the total mass *)

Lemma total_mass_nil : total_mass [] = 0.
Proof. reflexivity. Qed.

Lemma total_mass_cons (p : Planet) (l : list Planet) :
  total_mass (p :: l) = mass p + total_mass l.
Proof. reflexivity. Qed.

Lemma total_mass_app (l1 l2 : list Planet) :
  total_mass (l1 ++ l2) = total_mass l1 + total_mass l2.
Proof.
  induction l1 as [|p l1 IH].
  - rewrite total_mass_nil. cbn [app]. lra.
  - cbn [app]. rewrite !total_mass_cons, IH. lra.
Qed.

(** With distinct identities, a listed body is the only one of its
    identity. *)
Lemma ident_inj (l : list Planet) (a b : Planet) :
  NoDup (map ident l) -> In a l -> In b l -> ident a = ident b -> a = b.
Proof.
  induction l as [|p rest IH]; intros Hnd Ha Hb Hid; [destruct Ha|].
  cbn [map] in Hnd. inversion Hnd as [|i r Hnotin Hnd']; subst.
  destruct Ha as [-> | Ha], Hb as [-> | Hb].
  - reflexivity.
  - exfalso. apply Hnotin. rewrite Hid. apply in_map, Hb.
  - exfalso. apply Hnotin. rewrite <- Hid. apply in_map, Ha.
  - apply IH; assumption.
Qed.

Lemma list_remove_mass (q : Planet) (l l' : list Planet) :
  NoDup (map ident l) -> In q l -> list_remove q l = Ok l' ->
  total_mass l = mass q + total_mass l'.
Proof.
  intros Hnd Hin H. apply list_remove_split in H.
  destruct H as (front & q' & back & -> & -> & Hid & _).
  assert (q' = q).
  { apply (ident_inj (front ++ q' :: back)); auto.
    apply in_or_app. right. left. reflexivity. }
  subst q'. rewrite !total_mass_app, total_mass_cons. lra.
Qed.

Lemma write_back_mass (s self : Planet) (l : list Planet) :
  NoDup (map ident l) -> In self l -> ident s = ident self ->
  mass s = mass self -> total_mass (write_back s l) = total_mass l.
Proof.
  intros Hnd Hin Hid Hm. induction l as [|p rest IH]; [reflexivity|].
  cbn [write_back]. destruct (same p s) eqn:Hs.
  - apply same_true_iff in Hs.
    assert (p = self).
    { apply (ident_inj (p :: rest)); auto; [left; reflexivity | congruence]. }
    subst p. rewrite !total_mass_cons. lra.
  - apply same_false_iff in Hs. destruct Hin as [-> | Hin]; [congruence|].
    cbn [map] in Hnd. inversion Hnd; subst.
    rewrite !total_mass_cons, IH by assumption. reflexivity.
Qed.

Lemma update_position_mass (self : Planet) (w w' : world) :
  In self (planets w) -> wf_ids w -> update_position self w = Ok w' ->
  total_mass (planets w') = total_mass (planets w).
Proof.
  intros Hin [Hnd Hlt] Hu.
  destruct (update_position_inv _ _ _ _ Hu)
    as [(fx & fy & self' & _ & Hi & ->) | (q & m & l1 & l2 & Hs & Hc & H1 & H2 & ->)].
  - apply integrate_inv in Hi. destruct Hi as (_ & Hid & Hm & _).
    cbn [planets]. apply (write_back_mass self' self); assumption.
  - cbn [planets]. apply scan_collided in Hs. destruct Hs as (Hq & Hne & _).
    destruct (list_remove_NoDup _ _ _ H1 Hnd) as [Hnd1 _].
    assert (Hq1 : In q l1) by (eapply list_remove_keeps; eassumption).
    rewrite (list_remove_mass self _ _ Hnd Hin H1).
    rewrite (list_remove_mass q _ _ Hnd1 Hq1 H2).
    rewrite total_mass_app, total_mass_cons.
    apply collide_inv in Hc. destruct Hc as (_ & root & _ & ->).
    rewrite total_mass_nil. cbn [mass set_vel Planet_init]. lra.
Qed.

(** X4.  Frames conserve the total mass of the collection: integration leaves
    each mass as it is, and a merge replaces two bodies by one with the sum
    of their masses. *)
Theorem run_conserves_mass (inputs : list (bool * option nat)) (w w' : world) :
  wf_ids w -> run inputs w = Ok w' ->
  total_mass (planets w') = total_mass (planets w).
Proof.
  intros Hwf Hrun.
  refine (proj2 (run_invariant
            (fun w0 => wf_ids w0 /\ total_mass (planets w0) = total_mass (planets w))
            _ inputs w w' (conj Hwf eq_refl) Hrun)).
  intros self w0 w1 Hin [H0 Hm] Hu. split.
  - eapply update_position_wf; eassumption.
  - rewrite <- Hm. eapply update_position_mass; eassumption.
Qed.

Lemma run_conserves_mass_witness :
  total_mass [impact_merged] = total_mass (planets impact).
Proof.
  assert (Hrun : run [(false, None)] impact
                 = Ok {| planets := [impact_merged]; next_id := 3 |}).
  { cbn [run]. rewrite frame_impact. reflexivity. }
  exact (run_conserves_mass _ _ _ impact_wf Hrun).
Defined.

(** ** The trail as a queue *)

(** X6.  The trail is a first-in first-out queue of positions: an integration
    appends the new position; while the trail is shorter than [trail_limit]
    nothing is dropped, and from [trail_limit] points on the oldest point is
    dropped, one per integration, so the length stays as it was. *)
Theorem integrate_trail_fifo (self self' : Planet) (fx fy : R) :
  integrate self fx fy = Ok self' ->
  ((List.length (orbit self) < trail_limit)%nat ->
   orbit self' = (orbit self ++ [(x self', y self')])%list) /\
  ((trail_limit <= List.length (orbit self))%nat ->
   orbit self' = (tl (orbit self) ++ [(x self', y self')])%list /\
   List.length (orbit self') = List.length (orbit self)).
Proof.
  intros H. apply integrate_inv in H.
  destruct H as (_ & _ & _ & _ & _ & _ & _ & _ & Ho).
  rewrite Ho. clear Ho. set (pos := (x self', y self')).
  rewrite length_app. cbn [List.length]. split; intros Hlen.
  - destruct (Nat.ltb_spec trail_limit (List.length (orbit self) + 1));
      [lia | reflexivity].
  - destruct (Nat.ltb_spec trail_limit (List.length (orbit self) + 1));
      [|lia].
    destruct (orbit self) as [|a rest].
    + unfold trail_limit in Hlen. cbn in Hlen. lia.
    + cbn [tl app]. split; [reflexivity|].
      rewrite length_app. cbn [List.length]. lia.
Qed.

Lemma integrate_trail_fifo_witness :
  exists self',
    integrate veteran 0 0 = Ok self' /\
    orbit self' = (tl (orbit veteran) ++ [(x self', y self')])%list /\
    List.length (orbit self') = trail_limit.
Proof.
  assert (Hm : mass veteran <> 0) by (cbn [mass veteran]; lra).
  destruct (integrate_total veteran 0 0 Hm) as [self' Hi].
  assert (Hlen : (trail_limit <= List.length (orbit veteran))%nat).
  { cbn [orbit veteran]. rewrite repeat_length. apply le_n. }
  destruct (proj2 (integrate_trail_fifo veteran self' 0 0 Hi) Hlen) as [H1 H2].
  exists self'. split; [exact Hi|]. split; [exact H1|].
  rewrite H2. cbn [orbit veteran]. apply repeat_length.
Defined.

(** ** A body alone in the collection *)

Lemma frame_lone (d : option nat) (self self' : Planet) (next : nat) :
  integrate self 0 0 = Ok self' ->
  frame false d {| planets := [self]; next_id := next |}
  = Ok {| planets := [self']; next_id := next |}.
Proof.
  intros Hi. unfold frame. cbn [planets List.length frame_loop nth_error negb orb].
  unfold update_position, update_position_with. cbn [planets next_id].
  rewrite scan_skip by apply same_refl. cbn [scan_with].
  rewrite Hi. cbn [bind write_back].
  assert (Hs : same self self' = true).
  { apply same_true_iff. apply integrate_inv in Hi.
    destruct Hi as (_ & -> & _). reflexivity. }
  rewrite Hs. reflexivity.
Qed.

(** X7.  A body alone in the collection feels no force: over [n] frames that are
    not paused it keeps its velocity and moves by [n] times
    [velocity * TIMESTEP]; nothing is raised when its mass is not zero. *)
Theorem lone_body_drifts (n : nat) (d : option nat) (self : Planet) (next : nat) :
  mass self <> 0 ->
  exists self',
    run (repeat (false, d) n) {| planets := [self]; next_id := next |}
    = Ok {| planets := [self']; next_id := next |} /\
    x self' = x self + INR n * (x_vel self * TIMESTEP) /\
    y self' = y self + INR n * (y_vel self * TIMESTEP) /\
    x_vel self' = x_vel self /\ y_vel self' = y_vel self /\
    mass self' = mass self.
Proof.
  intros Hm. revert self Hm. induction n as [|n IH]; intros self Hm.
  - exists self. cbn [repeat run INR]. repeat split; lra.
  - destruct (integrate_total self 0 0 Hm) as [s1 Hi].
    pose proof (integrate_inv _ _ _ _ Hi)
      as (_ & _ & Hm1 & _ & Hvx & Hvy & Hx & Hy & _).
    assert (Hvx' : x_vel s1 = x_vel self) by (rewrite Hvx; field; exact Hm).
    assert (Hvy' : y_vel s1 = y_vel self) by (rewrite Hvy; field; exact Hm).
    destruct (IH s1) as (s' & Hrun & Hx' & Hy' & Hv1 & Hv2 & Hm').
    { rewrite Hm1. exact Hm. }
    exists s'. cbn [repeat run]. rewrite (frame_lone d self s1 next Hi).
    cbn [bind]. split; [exact Hrun|].
    rewrite S_INR, Hx', Hy', Hv1, Hv2, Hm', Hx, Hy, Hvx', Hvy', Hm1.
    repeat split; lra.
Qed.

Lemma lone_body_drifts_witness :
  exists self',
    run (repeat (false, None) 3) drifting
    = Ok {| planets := [self']; next_id := 1 |} /\
    x self' = x drifter + INR 3 * (x_vel drifter * TIMESTEP).
Proof.
  assert (Hm : mass drifter <> 0)
    by (cbn [mass drifter body set_vel Planet_init]; lra).
  destruct (lone_body_drifts 3 None drifter 1 Hm) as (s & H1 & H2 & _).
  exists s. split; [exact H1 | exact H2].
Defined.

(** ** The two orders of a merge *)

(** X8.  The physical state of a merged body does not depend on which of the two
    bodies is [self]: mass, position, velocity and both radii are the same
    in the two orders, and so is the type unless the masses are equal.  (The
    name and the colour do depend on the order.) *)
Theorem collide_symmetric (fresh fresh' : nat) (a b m : Planet) :
  collide fresh a b = Ok m ->
  exists m',
    collide fresh' b a = Ok m' /\
    mass m' = mass m /\ x m' = x m /\ y m' = y m /\
    x_vel m' = x_vel m /\ y_vel m' = y_vel m /\
    radius m' = radius m /\ physical_radius m' = physical_radius m /\
    (mass a <> mass b -> type_id m' = type_id m).
Proof.
  intros H. apply collide_inv in H. destruct H as (Hm & root & Hroot & ->).
  unfold collide.
  destruct (Req_dec_T (mass b + mass a) 0) as [H0 | _]; [exfalso; lra|].
  rewrite (Rplus_comm (physical_radius b ^ 3)), Hroot. cbn [bind].
  eexists. split; [reflexivity|].
  cbn [mass x y x_vel y_vel radius physical_radius type_id set_vel Planet_init].
  repeat split; try (field; lra); try lra.
  intros Hne.
  destruct (Rgt_dec (mass b) (mass a)), (Rgt_dec (mass a) (mass b));
    try reflexivity; exfalso; lra.
Qed.

Lemma collide_symmetric_witness :
  exists m',
    collide 7 rock_b rock_a = Ok m' /\
    mass m' = mass rock_ab /\ x m' = x rock_ab /\ x_vel m' = x_vel rock_ab.
Proof.
  destruct (collide_symmetric 2 7 rock_a rock_b rock_ab collide_rocks)
    as (m' & H1 & H2 & H3 & _ & H5 & _).
  exists m'. repeat split; assumption.
Defined.

(** * The interactive part *)

(** ** The lookups of TYPE_MAP *)

Lemma TYPE_MAP_keys (k : Z) :
  dict_lookup TYPE_MAP k <> None <-> (1 <= k <= 6)%Z.
Proof.
  unfold TYPE_MAP. cbn [dict_lookup].
  destruct (Z.eqb_spec 1 k); [split; [lia | discriminate]|].
  destruct (Z.eqb_spec 2 k); [split; [lia | discriminate]|].
  destruct (Z.eqb_spec 3 k); [split; [lia | discriminate]|].
  destruct (Z.eqb_spec 4 k); [split; [lia | discriminate]|].
  destruct (Z.eqb_spec 5 k); [split; [lia | discriminate]|].
  destruct (Z.eqb_spec 6 k); [split; [lia | discriminate]|].
  split; [intros H; contradiction | lia].
Qed.

(** X12.  [draw_info] raises [KeyError] exactly for a body whose type is not one
    of the keys 1..6 of [TYPE_MAP] (the constructor's default type 0 is
    such a type), whereas the label of [draw] is defined for every body and
    reads [Unknown] for those types. *)
Theorem type_lookups (p : Planet) :
  (info_type_line p = None <-> ~ (1 <= type_id p <= 6)%Z) /\
  (~ (1 <= type_id p <= 6)%Z ->
   draw_label p = (name p ++ " / Unknown")%string).
Proof.
  pose proof (TYPE_MAP_keys (type_id p)) as Hk.
  unfold info_type_line, draw_label, dict_get.
  destruct (dict_lookup TYPE_MAP (type_id p)) as [v|].
  - split.
    + split; [discriminate|]. intros Hn. exfalso. apply Hn, Hk. discriminate.
    + intros Hn. exfalso. apply Hn, Hk. discriminate.
  - split; [|reflexivity].
    split; [|reflexivity]. intros _ Hr. apply Hk in Hr. contradiction.
Qed.

Lemma type_lookups_witness :
  draw_label (Planet_init 0 0 0 1 WHITE 1 "x" 0) = "x / Unknown"%string /\
  info_type_line (Planet_init 0 0 0 1 WHITE 1 "x" 0) = None.
Proof.
  assert (H : ~ (1 <= type_id (Planet_init 0 0 0 1 WHITE 1 "x" 0) <= 6)%Z)
    by (cbn [type_id Planet_init]; lia).
  split.
  - exact (proj2 (type_lookups _) H).
  - exact (proj2 (proj1 (type_lookups _)) H).
Defined.

Lemma update_position_known_types (self : Planet) (w w' : world) :
  In self (planets w) -> known_types w ->
  update_position self w = Ok w' -> known_types w'.
Proof.
  intros Hin Hk H. unfold known_types in *.
  eapply update_position_Forall; [| | exact Hin | exact Hk | exact H].
  - intros fx fy self' Hp Hi. unfold integrate in Hi.
    destruct (Req_dec_T (mass self) 0); [discriminate|].
    injection Hi as <-. exact Hp.
  - intros q m Hp Hq Hc. apply collide_inv in Hc.
    destruct Hc as (_ & root & _ & ->). cbn [type_id set_vel Planet_init].
    destruct (Rgt_dec (mass self) (mass q)); assumption.
Qed.

(** X13.  A merged body takes its type from one of the two bodies, so types that
    [TYPE_MAP] knows stay known over any number of frames: [draw_info] then
    finds the type of every listed body. *)
Theorem run_known_types (inputs : list (bool * option nat)) (w w' : world) :
  known_types w -> run inputs w = Ok w' ->
  forall p, In p (planets w') -> exists line, info_type_line p = Some line.
Proof.
  intros Hk Hrun p Hp.
  assert (Hk' : known_types w').
  { refine (run_invariant known_types _ inputs w w' Hk Hrun).
    intros self w0 w1 Hin H0 Hu. eapply update_position_known_types; eassumption. }
  unfold known_types in Hk'. rewrite Forall_forall in Hk'.
  specialize (Hk' p Hp). unfold info_type_line.
  destruct (dict_lookup TYPE_MAP (type_id p)) as [v|]; [|contradiction].
  eexists. reflexivity.
Qed.

Lemma impact_known_types : known_types impact.
Proof.
  unfold known_types, impact. cbn [planets].
  apply Forall_cons; [|apply Forall_cons; [|apply Forall_nil]]; discriminate.
Qed.

Lemma run_known_types_witness :
  exists line, info_type_line impact_merged = Some line.
Proof.
  assert (Hrun : run [(false, None)] impact
                 = Ok {| planets := [impact_merged]; next_id := 3 |}).
  { cbn [run]. rewrite frame_impact. reflexivity. }
  exact (run_known_types _ _ _ impact_known_types Hrun impact_merged
           (or_introl eq_refl)).
Defined.

(** ** The zoom factor *)

Lemma handle_event_zoom (c : R) (mouse : R * R) (l : list Planet) (e : event)
    (u : ui) :
  0 < c <= 0.1 -> c <= zoom u -> c <= zoom (handle_event mouse l e u).
Proof.
  intros Hc Hz. unfold handle_event, scroll_speed.
  destruct e as [|button pos|button|rel|]; cbn [zoom]; try exact Hz.
  - destruct (Z.eqb button 1).
    + destruct (find _ l); cbn [zoom]; exact Hz.
    + destruct (Z.eqb button 4); [cbn [zoom]; lra|].
      destruct (Z.eqb button 5); [|exact Hz].
      cbn [zoom]. pose proof (Rmax_l 0.1 (zoom u - 0.1)). lra.
  - destruct (Z.eqb button 1); cbn [zoom]; exact Hz.
  - destruct (moving u); cbn [zoom]; exact Hz.
Qed.

Lemma zoom_stays_positive_aux (c : R) (mouse : R * R) (l : list Planet)
    (events : list event) (u : ui) :
  0 < c <= 0.1 -> c <= zoom u ->
  c <= zoom (handle_events mouse l events u) /\
  SCALE * zoom (handle_events mouse l events u) <> 0.
Proof.
  intros Hc Hz.
  assert (H : c <= zoom (handle_events mouse l events u)).
  { unfold handle_events. revert u Hz.
    induction events as [|e rest IH]; intros u Hz; cbn [fold_left].
    - exact Hz.
    - apply IH, handle_event_zoom; assumption. }
  split; [exact H|].
  pose proof SCALE_pos. apply Rgt_not_eq. apply Rmult_lt_0_compat; lra.
Qed.

(** X14.  Whatever the events, the zoom factor never falls to zero: it stays
    above any bound up to 0.1 it was above, in particular positive from its
    initial value 1.0.  So the division by [SCALE * zoom] of the drag
    (lines 295-296) has a non-zero divisor. *)
Theorem zoom_stays_positive (c : R) (mouse : R * R) (l : list Planet)
    (events : list event) (u : ui) :
  0 < c <= 0.1 -> c <= zoom u ->
  c <= zoom (handle_events mouse l events u) /\
  SCALE * zoom (handle_events mouse l events u) <> 0.
Proof. apply zoom_stays_positive_aux. Qed.

Lemma zoom_stays_positive_witness :
  0.1 <= zoom (handle_events (0, 0) []
                 [MOUSEBUTTONDOWN 5 (0, 0); MOUSEBUTTONDOWN 5 (0, 0)] ui_init).
Proof.
  assert (Hc : 0 < 0.1 <= 0.1) by lra.
  assert (Hz : 0.1 <= zoom ui_init) by (cbn [zoom ui_init]; lra).
  exact (proj1 (zoom_stays_positive 0.1 (0, 0) [] _ ui_init Hc Hz)).
Defined.

(** ** Dragging a body *)

Lemma find_ident (l : list Planet) (p : Planet) :
  NoDup (map ident l) -> In p l ->
  find (fun q => Nat.eqb (ident q) (ident p)) l = Some p.
Proof.
  intros Hnd Hin.
  destruct (find (fun q => Nat.eqb (ident q) (ident p)) l) as [q|] eqn:Hf.
  - apply find_some in Hf. destruct Hf as [Hq Hid]. apply Nat.eqb_eq in Hid.
    f_equal. apply (ident_inj l); assumption.
  - pose proof (find_none _ _ Hf p Hin) as H. cbn in H.
    rewrite Nat.eqb_refl in H. discriminate.
Qed.

(** X15.  With a non-zero zoom factor the drag raises nothing, and the dragged
    body follows the mouse: its place on the screen moves by exactly the
    displacement of the mouse since the last frame.  Its velocity, mass and
    trail are as before. *)
Theorem drag_follows_mouse (mouse : R * R) (u : ui) (w : world) (p : Planet) :
  zoom u <> 0 -> NoDup (map ident (planets w)) -> In p (planets w) ->
  dragging_planet u = Some (ident p) ->
  exists u' w' p',
    drag mouse u w = Ok (u', w') /\
    In p' (planets w') /\ ident p' = ident p /\
    scaled_x u' p' = scaled_x u p + (fst mouse - fst (start_pos u)) /\
    scaled_y u' p' = scaled_y u p + (snd mouse - snd (start_pos u)) /\
    start_pos u' = mouse /\
    x_vel p' = x_vel p /\ y_vel p' = y_vel p /\ mass p' = mass p /\
    orbit p' = orbit p.
Proof.
  intros Hz Hnd Hin Hd. unfold drag. rewrite Hd.
  assert (Hs : SCALE * zoom u <> 0).
  { apply Rmult_integral_contrapositive. split; [apply SCALE_neq_0 | exact Hz]. }
  destruct (Req_dec_T (SCALE * zoom u) 0) as [H0 | _]; [contradiction|].
  rewrite (find_ident _ _ Hnd Hin).
  eexists. eexists.
  exists (move p ((fst mouse - fst (start_pos u)) / (SCALE * zoom u))
                 ((snd mouse - snd (start_pos u)) / (SCALE * zoom u))).
  split; [reflexivity|]. cbn [planets]. split.
  - apply write_back_In_self. exists p. split; [exact Hin | reflexivity].
  - unfold scaled_x, scaled_y.
    cbn [ident x y x_vel y_vel mass orbit move zoom offset_x offset_y start_pos].
    pose proof SCALE_neq_0.
    repeat split; field; split; assumption.
Qed.

Lemma drag_follows_mouse_witness :
  exists u' w' p',
    drag (30, 40)
      {| running := true; offset_x := 0; offset_y := 0; zoom := 1.0;
         paused := true; hovered_planet := None; moving := false;
         start_pos := (10, 10); dragging_planet := Some 1%nat |} rocks
    = Ok (u', w') /\
    In p' (planets w') /\ ident p' = 1%nat /\
    scaled_x u' p' = scaled_x ui_init rock_b + (30 - 10).
Proof.
  set (u := {| running := true; offset_x := 0; offset_y := 0; zoom := 1.0;
               paused := true; hovered_planet := None; moving := false;
               start_pos := (10, 10); dragging_planet := Some 1%nat |}).
  assert (Hz : zoom u <> 0) by (cbn [zoom u]; lra).
  destruct (drag_follows_mouse (30, 40) u rocks rock_b Hz (proj1 rocks_wf)
              (or_intror (or_introl eq_refl)) eq_refl)
    as (u' & w' & p' & H1 & H2 & H3 & H4 & _).
  exists u', w', p'. repeat split; assumption.
Defined.

(** ** The hover test *)

Lemma hover_loop_find (u : ui) (mouse : R * R) (l : list Planet)
    (paused0 : bool) :
  hover_loop u mouse l paused0
  = match find (under_mouse u mouse) l with
    | Some p => (Some p, true)
    | None =>
        (None,
         match dragging_planet u, l with
         | None, _ :: _ => false
         | _, _ => paused0
         end)
    end.
Proof.
  revert paused0. induction l as [|p rest IH]; intros paused0.
  - cbn. destruct (dragging_planet u); reflexivity.
  - cbn [hover_loop find]. destruct (under_mouse u mouse p); [reflexivity|].
    rewrite IH. destruct (find (under_mouse u mouse) rest); [reflexivity|].
    destruct (dragging_planet u); [reflexivity|].
    destruct rest; reflexivity.
Qed.

(** X17.  While the mouse is over a listed body and nothing is dragged, the
    simulation stands still: the hover test sets [paused], and the frame
    then updates no body. *)
Theorem hover_freezes (mouse : R * R) (u : ui) (w : world) :
  dragging_planet u = None ->
  (exists p, In p (planets w) /\ under_mouse u mouse p = true) ->
  paused (hover mouse u (planets w)) = true /\
  frame (paused (hover mouse u (planets w)))
        (dragging_planet (hover mouse u (planets w))) w = Ok w.
Proof.
  intros Hd (p & Hin & Hp).
  assert (Hh : paused (hover mouse u (planets w)) = true
               /\ dragging_planet (hover mouse u (planets w)) = None).
  { unfold hover. rewrite hover_loop_find.
    destruct (find (under_mouse u mouse) (planets w)) as [q|] eqn:Hf.
    - split; [reflexivity | exact Hd].
    - pose proof (find_none _ _ Hf p Hin). congruence. }
  destruct Hh as [H1 H2]. rewrite H1, H2. split; [reflexivity|].
  apply paused_loop_skips. reflexivity.
Qed.

Lemma under_mouse_centre (u : ui) (mouse : R * R) (p : Planet) :
  fst mouse = scaled_x u p -> snd mouse = scaled_y u p ->
  0 <= radius p * zoom u -> under_mouse u mouse p = true.
Proof.
  intros Hx Hy Hr. unfold under_mouse. rewrite Hx, Hy.
  replace ((scaled_x u p - scaled_x u p) ^ 2 + (scaled_y u p - scaled_y u p) ^ 2)
    with 0 by ring.
  rewrite sqrt_0.
  destruct (Rle_dec 0 (radius p * zoom u)); [reflexivity | contradiction].
Qed.

Lemma hover_freezes_witness :
  frame (paused (hover (600, 500) ui_init (planets rocks)))
        (dragging_planet (hover (600, 500) ui_init (planets rocks))) rocks
  = Ok rocks.
Proof.
  apply (hover_freezes (600, 500) ui_init rocks eq_refl).
  exists rock_a. split; [left; reflexivity|].
  apply under_mouse_centre.
  - unfold scaled_x, WIDTH.
    cbn [fst x zoom offset_x ui_init rock_a body set_vel Planet_init]. lra.
  - unfold scaled_y, HEIGHT.
    cbn [snd y zoom offset_y ui_init rock_a body set_vel Planet_init]. lra.
  - pose proof SCALE_pos.
    cbn [radius zoom ui_init rock_a body set_vel Planet_init]. lra.
Defined.

(** ** The solar system of mode 1 *)

(** Bodies of the preset: all on the x axis, each with its radius in
    pixels. *)
Ltac preset_apart_neg :=
  unfold overlaps; rewrite distance_axis by reflexivity;
  unfold sun, mercury, venus, earth, mars, jupiter, saturn, uranus, neptune;
  cbn [x physical_radius set_vel Planet_init]; unfold SCALE;
  rewrite Rabs_pos_eq by lra; lra.

Lemma solar_system_positive : positive_masses solar_system.
Proof.
  unfold positive_masses, solar_system. cbn [planets].
  repeat (apply Forall_cons;
          [unfold sun, mercury, venus, earth, mars, jupiter, saturn, uranus,
             neptune; cbn [mass set_vel Planet_init]; lra|]).
  apply Forall_nil.
Qed.

Lemma solar_system_known_types : known_types solar_system.
Proof.
  unfold known_types, solar_system. cbn [planets].
  repeat (apply Forall_cons; [discriminate|]). apply Forall_nil.
Qed.

Lemma solar_system_wf : wf_ids solar_system.
Proof.
  split.
  - cbn. repeat constructor; cbn; intuition congruence.
  - unfold solar_system. cbn [planets next_id].
    repeat (apply Forall_cons; [cbn; lia|]). apply Forall_nil.
Qed.

(** X22.  The preset of mode 1 is a sound start: nine bodies with distinct
    identities, positive masses and types that [TYPE_MAP] knows, no two of
    which overlap (so the first tests of [update_position] merge nothing
    that was placed apart). *)
Theorem solar_system_sound :
  wf_ids solar_system /\ positive_masses solar_system /\
  known_types solar_system /\
  ForallOrdPairs (fun a b => ~ overlaps a b) (planets solar_system).
Proof.
  split; [exact solar_system_wf|]. split; [exact solar_system_positive|].
  split; [exact solar_system_known_types|].
  unfold solar_system. cbn [planets].
  repeat (apply FOP_cons;
          [repeat (apply Forall_cons; [intros Ho; revert Ho; preset_apart_neg|]);
           apply Forall_nil|]).
  apply FOP_nil.
Qed.

(** X16.  The loop of lines 302-313 stops at the first listed body under the
    mouse and sets [paused]; when no body is under the mouse, it clears
    [paused] if nothing is dragged and the list is not empty, and leaves it
    as the events set it otherwise. *)
Theorem hover_loop_finds_first (u : ui) (mouse : R * R) (l : list Planet)
    (paused0 : bool) :
  hover_loop u mouse l paused0
  = match find (under_mouse u mouse) l with
    | Some p => (Some p, true)
    | None =>
        (None,
         match dragging_planet u, l with
         | None, _ :: _ => false
         | _, _ => paused0
         end)
    end.
Proof. apply hover_loop_find. Qed.

(** ** Click, pan and the manual setup *)

Lemma find_same_test (A : Type) (f g : A -> bool) (l : list A) :
  (forall a, f a = g a) -> find f l = find g l.
Proof.
  intros H. induction l as [|a rest IH]; [reflexivity|].
  cbn [find]. rewrite H, IH. reflexivity.
Qed.

Lemma clicked_zoom_1 (u : ui) (mouse : R * R) (p : Planet) :
  zoom u = 1 -> clicked u mouse p = under_mouse u mouse p.
Proof.
  intros Hz. unfold clicked, under_mouse, scaled_x, scaled_y. rewrite Hz.
  rewrite !Rmult_1_r. reflexivity.
Qed.

(** X19.  At zoom factor 1 the click test is the hover test: a left click starts
    the drag of the body the hover test finds under the mouse (the first in
    list order), and leaves the dragged body as it is when there is none. *)
Theorem click_picks_hovered (u : ui) (mouse pos : R * R) (l : list Planet) :
  zoom u = 1 ->
  dragging_planet (handle_event mouse l (MOUSEBUTTONDOWN 1 pos) u)
  = match find (under_mouse u mouse) l with
    | Some p => Some (ident p)
    | None => dragging_planet u
    end.
Proof.
  intros Hz. unfold handle_event. cbn [Z.eqb Pos.eqb].
  rewrite (find_same_test _ (clicked u mouse) (under_mouse u mouse))
    by (intros p; apply clicked_zoom_1, Hz).
  destruct (find (under_mouse u mouse) l); reflexivity.
Qed.

(** X20.  A left click on no body followed by a mouse motion pans the view: every
    body moves on the screen by the relative motion of the mouse, and the
    zoom factor and the dragged body are as before. *)
Theorem pan_shifts_screen (u : ui) (mouse pos rel : R * R) (l : list Planet)
    (p : Planet) :
  find (clicked u mouse) l = None ->
  let u' := handle_events mouse l [MOUSEBUTTONDOWN 1 pos; MOUSEMOTION rel] u in
  scaled_x u' p = scaled_x u p + fst rel /\
  scaled_y u' p = scaled_y u p + snd rel /\
  zoom u' = zoom u /\ dragging_planet u' = dragging_planet u.
Proof.
  intros Hf. unfold handle_events. cbn [fold_left].
  unfold handle_event. cbn [Z.eqb Pos.eqb]. rewrite Hf. cbn [moving].
  unfold scaled_x, scaled_y. cbn [zoom offset_x offset_y dragging_planet].
  repeat split; lra.
Qed.

Lemma pan_shifts_screen_witness :
  scaled_x (handle_events (0, 0) [] [MOUSEBUTTONDOWN 1 (0, 0); MOUSEMOTION (5, 7)]
              ui_init) rock_b
  = scaled_x ui_init rock_b + 5.
Proof.
  exact (proj1 (pan_shifts_screen ui_init (0, 0) (0, 0) (5, 7) [] rock_b eq_refl)).
Defined.

(** X21.  A body of the manual setup is drawn where it was typed in: a position of
    [x_pixels], [y_pixels] is divided by [SCALE] at the setup and multiplied
    by [SCALE] at the drawing, so with zoom factor 1 and no pan the body
    appears [x_pixels], [y_pixels] from the centre of the window. *)
Theorem manual_planet_on_screen (u : ui) (id : nat) (n : string) (t : Z)
    (x_pixels y_pixels : R) (r : Z) (m vx vy : R) (c : color_t) :
  scaled_x u (manual_planet id n t x_pixels y_pixels r m vx vy c)
  = x_pixels * zoom u + WIDTH / 2 + offset_x u /\
  scaled_y u (manual_planet id n t x_pixels y_pixels r m vx vy c)
  = y_pixels * zoom u + HEIGHT / 2 + offset_y u /\
  physical_radius (manual_planet id n t x_pixels y_pixels r m vx vy c) * SCALE
  = IZR r.
Proof.
  unfold scaled_x, scaled_y, manual_planet.
  cbn [x y physical_radius set_vel Planet_init].
  pose proof SCALE_neq_0. repeat split; field; assumption.
Qed.

(** * The step of one body *)

Lemma scan_no_overlap (self : Planet) (l : list Planet) (ax ay : R) :
  (forall q, In q l -> ident q <> ident self -> ~ overlaps self q) ->
  scan self l ax ay
  = Forces (ax + fst (net_force self l)) (ay + snd (net_force self l)).
Proof.
  unfold scan. revert ax ay.
  induction l as [|p rest IH]; intros ax ay Hno.
  - cbn. f_equal; lra.
  - cbn [net_force fold_right]. fold (net_force self rest).
    destruct (same self p) eqn:Hs.
    + rewrite scan_skip by exact Hs. apply IH.
      intros q Hq. apply Hno. right. exact Hq.
    + rewrite scan_force; [|exact Hs|].
      * rewrite IH by (intros q Hq; apply Hno; right; exact Hq).
        cbn [fst snd]. f_equal; lra.
      * apply Hno; [left; reflexivity|].
        apply same_false_iff in Hs. congruence.
Qed.

(** X11.  A call of [update_position] touches no body but [self] and the one it
    merges with: every other listed body is listed afterwards with the same
    state. *)
Theorem update_position_spares_others (self p : Planet) (w w' : world) :
  wf_ids w -> In self (planets w) -> update_position self w = Ok w' ->
  In p (planets w) -> ident p <> ident self ->
  In p (planets w') \/
  (overlaps self p /\ ~ In (ident p) (map ident (planets w'))).
Proof.
  intros Hwf Hself Hu Hp Hne.
  destruct (update_position_others self p w w' Hwf Hself Hu Hp Hne)
    as [H | H]; [left; exact H|].
  destruct (update_position_inv _ _ _ _ Hu)
    as [(fx & fy & self' & _ & Hi & ->) | (q & m & l1 & l2 & Hs & Hc & H1 & H2 & ->)].
  - exfalso. apply H. cbn [planets]. rewrite write_back_idents.
    apply in_map, Hp.
  - destruct (Nat.eq_dec (ident p) (ident q)) as [Heq | Hpq].
    + right. split; [|exact H].
      apply scan_collided in Hs. destruct Hs as (Hq & _ & Ho).
      destruct Hwf as [Hnd _].
      rewrite (ident_inj _ p q Hnd Hp Hq Heq). exact Ho.
    + left. cbn [planets]. apply in_or_app. left.
      eapply list_remove_keeps; [exact H2 | | exact Hpq].
      eapply list_remove_keeps; eassumption.
Qed.

Lemma update_position_spares_others_witness :
  In impact_b [impact_merged] \/
  (overlaps impact_a impact_b /\
   ~ In (ident impact_b) (map ident [impact_merged])).
Proof.
  apply (update_position_spares_others impact_a impact_b impact _ impact_wf
           (or_introl eq_refl) update_impact (or_intror (or_introl eq_refl))).
  discriminate.
Defined.

(** ** Energy in a merge *)

(** X9.  A merge is inelastic: with positive masses the kinetic energy of the
    merged body is at most the sum of the kinetic energies of the two
    bodies. *)
Theorem collide_loses_energy (fresh : nat) (a b m : Planet) :
  collide fresh a b = Ok m -> 0 < mass a -> 0 < mass b ->
  kinetic_energy m <= kinetic_energy a + kinetic_energy b.
Proof.
  intros H Ha Hb. apply collide_inv in H. destruct H as (Hm & root & _ & ->).
  unfold kinetic_energy. cbn [mass x_vel y_vel set_vel Planet_init].
  set (M := mass a + mass b). assert (HM : 0 < M) by (unfold M; lra).
  assert (Hx : M * ((x_vel a * mass a + x_vel b * mass b) / M) ^ 2
               <= mass a * x_vel a ^ 2 + mass b * x_vel b ^ 2).
  { replace (M * ((x_vel a * mass a + x_vel b * mass b) / M) ^ 2)
      with ((x_vel a * mass a + x_vel b * mass b) ^ 2 / M) by (field; lra).
    apply (Rmult_le_reg_r M); [exact HM|].
    unfold Rdiv. rewrite Rmult_assoc, Rinv_l, Rmult_1_r by lra.
    unfold M. pose proof (Rmult_lt_0_compat _ _ Ha Hb).
    assert (0 <= mass a * mass b * (x_vel a - x_vel b) ^ 2)
      by (apply Rmult_le_pos; [lra | apply pow2_ge_0]).
    nra. }
  assert (Hy : M * ((y_vel a * mass a + y_vel b * mass b) / M) ^ 2
               <= mass a * y_vel a ^ 2 + mass b * y_vel b ^ 2).
  { replace (M * ((y_vel a * mass a + y_vel b * mass b) / M) ^ 2)
      with ((y_vel a * mass a + y_vel b * mass b) ^ 2 / M) by (field; lra).
    apply (Rmult_le_reg_r M); [exact HM|].
    unfold Rdiv. rewrite Rmult_assoc, Rinv_l, Rmult_1_r by lra.
    unfold M. pose proof (Rmult_lt_0_compat _ _ Ha Hb).
    assert (0 <= mass a * mass b * (y_vel a - y_vel b) ^ 2)
      by (apply Rmult_le_pos; [lra | apply pow2_ge_0]).
    nra. }
  lra.
Qed.

Lemma collide_loses_energy_witness :
  kinetic_energy rock_ab <= kinetic_energy rock_a + kinetic_energy rock_b.
Proof.
  assert (Ha : 0 < mass rock_a) by (cbn; lra).
  assert (Hb : 0 < mass rock_b) by (cbn; lra).
  exact (collide_loses_energy 2 rock_a rock_b rock_ab collide_rocks Ha Hb).
Defined.

(** * The first overlapping body and the trail of a skipped body *)

(** ** The first overlapping body *)

Lemma scan_collided_first (force_law : Planet -> Planet -> R * R)
    (self q : Planet) (l : list Planet) (ax ay : R) :
  scan_with force_law self l ax ay = Collided q ->
  exists front back,
    l = (front ++ q :: back)%list /\
    Forall (fun p => ident p = ident self \/ ~ overlaps self p) front.
Proof.
  revert ax ay. induction l as [|p rest IH]; intros ax ay H; [discriminate|].
  destruct (same self p) eqn:Hs.
  - rewrite scan_skip in H by exact Hs.
    destruct (IH _ _ H) as (front & back & -> & Hf).
    exists (p :: front), back. split; [reflexivity|].
    constructor; [|exact Hf]. left. apply same_true_iff in Hs. congruence.
  - destruct (Rle_dec (distance self p) (physical_radius self + physical_radius p))
      as [Ho | Ho].
    + rewrite scan_hit in H by assumption. injection H as <-.
      exists [], rest. split; [reflexivity | constructor].
    + rewrite scan_force in H by assumption.
      destruct (IH _ _ H) as (front & back & -> & Hf).
      exists (p :: front), back. split; [reflexivity|].
      constructor; [|exact Hf]. right. exact Ho.
Qed.

(** C4, as the code has it.  A call of [update_position] for a listed body
    [self] tests the positions as they are before [self] moves.  Either no
    other body of the collection overlaps [self], and [self] is integrated
    and stays in the collection; or [self] overlaps another body, and with
    [q] the first such body in list order (every body listed before [q] is
    [self] or does not overlap it), [self] and [q] are removed and their
    merge is appended: the collection has one body less.  Nothing is tested
    after the integration. *)
Theorem update_position_overlap (self : Planet) (w w' : world) :
  wf_ids w -> In self (planets w) -> update_position self w = Ok w' ->
  ((forall q, In q (planets w) -> ident q <> ident self -> ~ overlaps self q) /\
   (exists fx fy self', integrate self fx fy = Ok self' /\
                        In self' (planets w')) /\
   List.length (planets w') = List.length (planets w))
  \/
  (exists q m front back l1 l2,
     planets w = (front ++ q :: back)%list /\
     Forall (fun p => ident p = ident self \/ ~ overlaps self p) front /\
     In q (planets w) /\ ident q <> ident self /\ overlaps self q /\
     collide (next_id w) self q = Ok m /\
     list_remove self (planets w) = Ok l1 /\ list_remove q l1 = Ok l2 /\
     planets w' = (l2 ++ [m])%list /\ In m (planets w') /\
     ~ In (ident self) (map ident (planets w')) /\
     ~ In (ident q) (map ident (planets w')) /\
     List.length (planets w) = S (List.length (planets w'))).
Proof.
  intros [Hnd Hlt] Hin Hu.
  destruct (update_position_inv _ _ _ _ Hu)
    as [(fx & fy & self' & Hs & Hi & ->) | (q & m & l1 & l2 & Hs & Hc & H1 & H2 & ->)].
  - left. split; [|split].
    + intros q Hq Hne. eapply scan_forces; eassumption.
    + exists fx, fy, self'. split; [exact Hi|]. cbn.
      apply write_back_In_self. exists self. split; [exact Hin|].
      apply integrate_inv in Hi. destruct Hi as (_ & -> & _). reflexivity.
    + cbn. apply write_back_length.
  - right.
    destruct (scan_collided_first _ _ _ _ _ _ Hs) as (front & back & Hsplit & Hfront).
    apply scan_collided in Hs. destruct Hs as (Hq & Hne & Ho).
    exists q, m, front, back, l1, l2. cbn [planets].
    destruct (list_remove_NoDup _ _ _ H1 Hnd) as [Hnd1 Hout1].
    destruct (list_remove_NoDup _ _ _ H2 Hnd1) as [_ Hout2].
    assert (Hm : ident m = next_id w).
    { apply collide_inv in Hc. destruct Hc as (_ & root & _ & ->). reflexivity. }
    rewrite Forall_forall in Hlt.
    repeat split; try assumption; try reflexivity.
    + apply in_or_app. right. left. reflexivity.
    + rewrite map_app, in_app_iff. intros [Hi | [Hi | []]].
      * apply Hout1. apply in_map_iff in Hi. destruct Hi as (p & Hp & Hpin).
        rewrite <- Hp. apply in_map. eapply list_remove_incl; eassumption.
      * pose proof (Hlt _ Hin). lia.
    + rewrite map_app, in_app_iff. intros [Hi | [Hi | []]].
      * apply Hout2, Hi.
      * pose proof (Hlt _ Hq). lia.
    + apply list_remove_length in H1, H2. rewrite length_app, H1, H2. cbn. lia.
Qed.

Lemma collide_crowd : collide 3 impact_a impact_b = Ok crowd_merged.
Proof.
  unfold collide, pow_third, impact_a, impact_b. rewrite !body_radius.
  cbn [mass x y x_vel y_vel name type_id color body set_vel Planet_init].
  real_cases. cbn [bind]. f_equal.
  planet_fields crowd_merged; try lra.
  - field. apply SCALE_neq_0.
  - reflexivity.
Qed.

Lemma update_pile :
  update_position impact_a pile
  = Ok {| planets := [impact_c; crowd_merged]; next_id := 4 |}.
Proof.
  unfold update_position, update_position_with, pile. cbn [planets next_id].
  rewrite scan_skip by reflexivity.
  rewrite scan_hit by (reflexivity || apply impact_overlaps).
  rewrite collide_crowd. reflexivity.
Qed.

Lemma pile_wf : wf_ids pile.
Proof.
  split.
  - cbn. repeat constructor; cbn; intuition congruence.
  - unfold pile. cbn [planets next_id].
    repeat (apply Forall_cons; [cbn; lia|]). apply Forall_nil.
Qed.

Lemma impact_c_overlaps : overlaps impact_a impact_c.
Proof.
  unfold overlaps. rewrite distance_axis by reflexivity.
  unfold impact_a, impact_c. rewrite !body_radius.
  cbn [x body set_vel Planet_init]. rewrite Rabs_pos_eq; lra.
Qed.

(** In [pile] the body [impact_a] overlaps both [impact_b] and the later
    [impact_c]; the theorem leaves [impact_b] as the only body it can have
    merged with. *)
Lemma update_position_overlap_witness :
  overlaps impact_a impact_b /\ overlaps impact_a impact_c /\
  exists m l1 l2,
    collide (next_id pile) impact_a impact_b = Ok m /\
    list_remove impact_a (planets pile) = Ok l1 /\
    list_remove impact_b l1 = Ok l2 /\
    [impact_c; crowd_merged] = (l2 ++ [m])%list.
Proof.
  split; [exact impact_overlaps|]. split; [exact impact_c_overlaps|].
  destruct (update_position_overlap impact_a pile _ pile_wf
              (or_introl eq_refl) update_pile)
    as [(H & _) | (q & m & front & back & l1 & l2 & Hsplit & Hfront & _ & Hne
                   & Ho & Hc & H1 & H2 & Hw & _)].
  - exfalso. apply (H impact_b).
    + right. left. reflexivity.
    + discriminate.
    + exact impact_overlaps.
  - assert (Hq : q = impact_b).
    { unfold pile in Hsplit. cbn [planets] in Hsplit.
      destruct front as [|f1 front].
      - cbn [app] in Hsplit. injection Hsplit as Hq _. subst q.
        exfalso. apply Hne. reflexivity.
      - destruct front as [|f2 front].
        + cbn [app] in Hsplit. injection Hsplit as _ Hq _. symmetry. exact Hq.
        + exfalso. cbn [app] in Hsplit. injection Hsplit as _ Hf2 _.
          inversion Hfront as [|? ? _ Hrest]; subst.
          inversion Hrest as [|? ? Hb _]; subst.
          destruct Hb as [Hb | Hb]; [discriminate Hb|].
          apply Hb, impact_overlaps. }
    subst q. exists m, l1, l2. cbn [planets] in Hw.
    repeat split; assumption.
Defined.

(** ** The trail *)

Lemma integrate_ends (self self' : Planet) (fx fy : R) :
  integrate self fx fy = Ok self' -> trail_ends_here self'.
Proof.
  intros H. apply integrate_inv in H.
  destruct H as (_ & _ & _ & _ & _ & _ & _ & _ & Ho).
  unfold trail_ends_here. rewrite Ho. clear Ho.
  set (pos := (x self', y self')).
  destruct (Nat.ltb trail_limit (List.length (orbit self ++ [pos]))) eqn:Hlt.
  - destruct (orbit self) as [|a rest].
    + exfalso. apply Nat.ltb_lt in Hlt. unfold trail_limit in Hlt.
      cbn in Hlt. lia.
    + exists rest. reflexivity.
  - exists (orbit self). reflexivity.
Qed.

Lemma integrate_bounded (self self' : Planet) (fx fy : R) :
  integrate self fx fy = Ok self' ->
  (List.length (orbit self) <= trail_limit)%nat ->
  (List.length (orbit self') <= trail_limit)%nat.
Proof.
  intros H Hlen. apply integrate_inv in H.
  destruct H as (_ & _ & _ & _ & _ & _ & _ & _ & Ho).
  rewrite Ho. clear Ho. set (pos := (x self', y self')).
  destruct (Nat.ltb trail_limit (List.length (orbit self ++ [pos]))) eqn:Hlt.
  - destruct (orbit self) as [|a rest].
    + cbn. lia.
    + cbn [tl app]. rewrite length_app. cbn in *. lia.
  - apply Nat.ltb_ge in Hlt. exact Hlt.
Qed.

Lemma update_position_bounded (self : Planet) (w w' : world) :
  In self (planets w) -> trails_bounded w ->
  update_position self w = Ok w' -> trails_bounded w'.
Proof.
  intros Hin Hall H. unfold trails_bounded in *.
  eapply update_position_Forall; [| | exact Hin | exact Hall | exact H].
  - intros fx fy self' Hp Hi. eapply integrate_bounded; eassumption.
  - intros q m _ _ Hc. apply collide_inv in Hc.
    destruct Hc as (_ & root & _ & ->). cbn. lia.
Qed.

(** C7, as the code has it.  After any number of frames that return: the
    trails are within [trail_limit] = 200 if they were at the start; and
    every listed body either has a trail that ends at its current position,
    or is exactly as it was at the start (no frame has integrated it: same
    position, same trail), or is a merge product of these frames that has
    not been integrated, with an empty trail.  Every integration leaves a
    trail that is not empty and ends at the new position. *)
Theorem trail_invariant (inputs : list (bool * option nat)) (w w' : world) :
  run inputs w = Ok w' ->
  trail_limit = 200%nat /\
  (trails_bounded w -> trails_bounded w') /\
  (forall p, In p (planets w') ->
     trail_ends_here p \/ In p (planets w) \/
     (orbit p = [] /\ (next_id w <= ident p)%nat)) /\
  (forall self fx fy self',
     integrate self fx fy = Ok self' -> trail_ends_here self').
Proof.
  intros Hrun. split; [reflexivity|]. split; [|split].
  - intros Hb.
    refine (run_invariant trails_bounded _ inputs w w' Hb Hrun).
    intros self w0 w1 Hin H0 Hu. eapply update_position_bounded; eassumption.
  - pose (Inv := fun w0 : world =>
        (next_id w <= next_id w0)%nat /\
        forall p, In p (planets w0) ->
          trail_ends_here p \/ In p (planets w) \/
          (orbit p = [] /\ (next_id w <= ident p)%nat)).
    assert (HI : Inv w').
    { refine (run_invariant Inv _ inputs w w' _ Hrun).
      - intros self w0 w1 Hin [Hle H0] Hu.
        destruct (update_position_inv _ _ _ _ Hu)
          as [(fx & fy & self' & _ & Hi & ->)
             | (q & m & l1 & l2 & _ & Hc & H1 & H2 & ->)];
          unfold Inv; cbn [planets next_id].
        + split; [exact Hle|]. intros p Hp.
          destruct (write_back_In _ _ _ Hp) as [-> | Hp0].
          * left. eapply integrate_ends, Hi.
          * apply H0, Hp0.
        + split; [lia|]. intros p Hp. apply in_app_or in Hp.
          destruct Hp as [Hp | [<- | []]].
          * apply H0. eapply list_remove_incl; [exact H1|].
            eapply list_remove_incl; [exact H2 | exact Hp].
          * right. right. apply collide_inv in Hc.
            destruct Hc as (_ & root & _ & ->). cbn. split; [reflexivity | exact Hle].
      - unfold Inv. split; [apply le_n|]. intros p Hp. right. left. exact Hp. }
    apply HI.
  - intros self fx fy self'. apply integrate_ends.
Qed.

Lemma approach_bounded : trails_bounded approach.
Proof.
  unfold trails_bounded, approach. cbn [planets].
  apply Forall_cons; [|apply Forall_cons; [|apply Forall_nil]]; cbn; lia.
Qed.

Lemma trail_invariant_witness :
  trails_bounded {| planets := [still_after; mover_after]; next_id := 2 |} /\
  (trail_ends_here still_after \/ In still_after (planets approach) \/
   (orbit still_after = [] /\ (next_id approach <= ident still_after)%nat)).
Proof.
  assert (Hrun : run [(false, None)] approach
                 = Ok {| planets := [still_after; mover_after]; next_id := 2 |}).
  { cbn [run]. rewrite frame_approach. reflexivity. }
  destruct (trail_invariant _ _ _ Hrun) as (_ & Hb & Ho & _).
  split.
  - exact (Hb approach_bounded).
  - exact (Ho still_after (or_introl eq_refl)).
Defined.

Lemma cube_le_reg (a b : R) : 0 <= a -> 0 <= b -> a ^ 3 <= b ^ 3 -> a <= b.
Proof.
  intros Ha Hb H. destruct (Rle_dec a b) as [|Hn]; [assumption|].
  exfalso. assert (Hlt : b < a) by lra.
  assert (Hpos : 0 < a ^ 2 + a * b + b ^ 2) by nra.
  assert (Hd : 0 < (a - b) * (a ^ 2 + a * b + b ^ 2))
    by (apply Rmult_lt_0_compat; lra).
  replace ((a - b) * (a ^ 2 + a * b + b ^ 2)) with (a ^ 3 - b ^ 3) in Hd by ring.
  lra.
Qed.

Lemma crowd_merged_radius : physical_radius crowd_merged <= 2e6.
Proof.
  cbn [physical_radius crowd_merged]. apply cube_le_reg.
  - apply Rlt_le, exp_pos.
  - lra.
  - rewrite Rpower_third_cube by lra. lra.
Qed.

Lemma update_crowd :
  update_position impact_a crowd
  = Ok {| planets := [bystander; crowd_merged]; next_id := 4 |}.
Proof.
  unfold update_position, update_position_with, crowd. cbn [planets next_id].
  rewrite scan_skip by reflexivity.
  rewrite scan_hit by (reflexivity || apply impact_overlaps).
  rewrite collide_crowd. reflexivity.
Qed.

Lemma crowd_merged_apart : ~ overlaps crowd_merged bystander.
Proof.
  pose proof crowd_merged_radius as Hr.
  unfold overlaps. rewrite distance_axis by reflexivity.
  unfold bystander at 2. rewrite body_radius.
  cbn [x bystander crowd_merged body set_vel Planet_init].
  rewrite Rabs_pos_eq by lra. lra.
Qed.

Lemma update_crowd_merged :
  exists moved,
    update_position crowd_merged
      {| planets := [bystander; crowd_merged]; next_id := 4 |}
    = Ok {| planets := [bystander; moved]; next_id := 4 |} /\
    ident moved = 3%nat.
Proof.
  assert (Hm : mass crowd_merged <> 0) by (cbn [mass crowd_merged]; lra).
  destruct (integrate_total crowd_merged
              (0 + fst (attract crowd_merged bystander))
              (0 + snd (attract crowd_merged bystander)) Hm) as [moved Hi].
  assert (Hid : ident moved = 3%nat).
  { apply integrate_inv in Hi. destruct Hi as (_ & -> & _). reflexivity. }
  exists moved. split; [|exact Hid].
  unfold update_position, update_position_with. cbn [planets next_id].
  rewrite scan_force by (reflexivity || apply crowd_merged_apart).
  rewrite scan_skip by reflexivity. cbn [scan_with].
  rewrite Hi. cbn [bind write_back]. unfold same. rewrite Hid. reflexivity.
Qed.

(** C7, as stated, fails for a body that no merge touches.  In one frame of
    [crowd] the loop takes [impact_a], which merges with [impact_b]; the
    list is then [bystander; merged body] and the loop, at index 1, goes on
    with the merged body and ends.  [bystander] has not been integrated: it
    is in the collection after the step, its trail is empty, and no last
    element of it is its position. *)
Lemma skipped_body_has_empty_trail :
  exists moved,
    run [(false, None)] crowd
    = Ok {| planets := [bystander; moved]; next_id := 4 |} /\
    ident bystander <> ident moved /\
    orbit bystander = [] /\
    ~ trail_ends_here bystander.
Proof.
  destruct update_crowd_merged as (moved & Hu & Hid).
  exists moved. split; [|split; [|split]].
  - cbn [run]. unfold frame.
    change (List.length (planets crowd)) with 3%nat.
    cbn [frame_loop]. change (nth_error (planets crowd) 0) with (Some impact_a).
    cbn [negb orb]. rewrite update_crowd. cbn [bind planets nth_error].
    rewrite Hu. reflexivity.
  - rewrite Hid. discriminate.
  - reflexivity.
  - intros [front H]. cbn [orbit bystander body set_vel Planet_init] in H.
    destruct front; discriminate H.
Qed.

(** * Exceptions, masses and the step without a collision *)

(** ** The removals never fail *)

Lemma update_position_not_value_error (self : Planet) (w : world) :
  In self (planets w) -> update_position self w <> Raise ValueError.
Proof.
  intros Hin. unfold update_position, update_position_with.
  destruct (scan_with attract self (planets w) 0 0) as [q | fx fy] eqn:Hscan.
  - apply scan_collided in Hscan. destruct Hscan as (Hq & Hne & _).
    destruct (collide (next_id w) self q) as [m | e] eqn:Hc.
    + destruct (list_remove_In self (planets w)) as [l1 H1];
        [exists self; split; [exact Hin | reflexivity]|].
      destruct (list_remove_In q l1) as [l2 H2].
      { exists q. split; [|reflexivity].
        eapply list_remove_keeps; eassumption. }
      cbn [bind]. rewrite H1. cbn [bind]. rewrite H2. discriminate.
    + cbn [bind]. intros H. injection H as ->.
      unfold collide, pow_third in Hc.
      destruct (Req_dec_T (mass self + mass q) 0); [discriminate|].
      destruct (Rlt_dec 0 (physical_radius self ^ 3 + physical_radius q ^ 3));
        [discriminate|].
      destruct (Req_dec_T (physical_radius self ^ 3 + physical_radius q ^ 3) 0);
        discriminate.
  - unfold integrate. destruct (Req_dec_T (mass self) 0); discriminate.
Qed.

Lemma frame_loop_not_value_error (fuel : nat) (paused0 : bool)
    (d : option nat) (i : nat) (w : world) :
  frame_loop fuel paused0 d i w <> Raise ValueError.
Proof.
  revert i w. induction fuel as [|fuel IH]; intros i w; cbn [frame_loop];
    [discriminate|].
  destruct (nth_error (planets w) i) as [p|] eqn:Hn; [|discriminate].
  destruct (negb paused0 || is_dragging p d); [|apply IH].
  pose proof (update_position_not_value_error p w (nth_error_In _ _ Hn)) as Hu.
  destruct (update_position p w) as [w1 | e]; cbn [bind]; [apply IH|].
  intros H. apply Hu. exact H.
Qed.

(** X1.  No frame raises [ValueError], whatever the collection, the pause
    flag and the dragged body: when [update_position] reaches the two
    [remove] of lines 133-134, [self] and the overlapped body are both in
    the list, although the list changes under the loop of lines 315-317
    that reads it. *)
Theorem run_never_value_error (inputs : list (bool * option nat)) (w : world) :
  run inputs w <> Raise ValueError.
Proof.
  revert w. induction inputs as [|[paused0 d] rest IH]; intros w; cbn [run];
    [discriminate|].
  pose proof (frame_loop_not_value_error (List.length (planets w)) paused0 d 0 w)
    as Hf.
  unfold frame. destruct (frame_loop _ paused0 d 0 w) as [w1 | e];
    cbn [bind]; [apply IH | exact Hf].
Qed.

(** ** Masses over frames *)

(** X2.  Masses stay positive: if every listed body has a positive mass,
    so has every listed body after any number of frames (integration keeps
    the mass, a merged body has the sum of two positive masses). *)
Theorem run_keeps_masses_positive (inputs : list (bool * option nat))
    (w w' : world) :
  positive_masses w -> run inputs w = Ok w' -> positive_masses w'.
Proof.
  intros Hpos Hrun.
  refine (run_invariant positive_masses _ inputs w w' Hpos Hrun).
  intros self w0 w1 Hin H0 Hu. eapply update_position_positive; eassumption.
Qed.

Lemma impact_positive : positive_masses impact.
Proof.
  unfold positive_masses, impact. cbn [planets].
  apply Forall_cons; [|apply Forall_cons; [|apply Forall_nil]];
    cbn [mass impact_a impact_b body set_vel Planet_init]; lra.
Qed.

Lemma run_keeps_masses_positive_witness :
  positive_masses {| planets := [impact_merged]; next_id := 3 |}.
Proof.
  assert (Hrun : run [(false, None)] impact
                 = Ok {| planets := [impact_merged]; next_id := 3 |}).
  { cbn [run]. rewrite frame_impact. reflexivity. }
  exact (run_keeps_masses_positive _ _ _ impact_positive Hrun).
Defined.

(** ** The step without a collision *)

(** X10.  The integrator is the semi-implicit Euler step under the sum of
    the pairwise forces: when [update_position] returns and no other body
    overlapped [self], the collection is the same list with [self] replaced
    by its new state, whose velocity is the old one plus
    [net force / mass * TIMESTEP] and whose position is the old one plus
    the new velocity times [TIMESTEP]. *)
Theorem update_position_euler (self : Planet) (w w' : world) :
  In self (planets w) -> update_position self w = Ok w' ->
  (forall q, In q (planets w) -> ident q <> ident self -> ~ overlaps self q) ->
  exists self',
    w' = {| planets := write_back self' (planets w); next_id := next_id w |} /\
    In self' (planets w') /\ ident self' = ident self /\
    mass self' = mass self /\
    x_vel self'
    = x_vel self + fst (net_force self (planets w)) / mass self * TIMESTEP /\
    y_vel self'
    = y_vel self + snd (net_force self (planets w)) / mass self * TIMESTEP /\
    x self' = x self + x_vel self' * TIMESTEP /\
    y self' = y self + y_vel self' * TIMESTEP.
Proof.
  intros Hin Hu Hno.
  pose proof (scan_no_overlap self (planets w) 0 0 Hno) as Hscan.
  unfold scan in Hscan.
  destruct (update_position_inv _ _ _ _ Hu)
    as [(fx & fy & self' & Hs & Hi & ->) | (q & m & l1 & l2 & Hs & _)];
    [|rewrite Hscan in Hs; discriminate].
  rewrite Hscan in Hs. injection Hs as <- <-.
  pose proof (integrate_inv _ _ _ _ Hi)
    as (_ & Hid & Hm & _ & Hvx & Hvy & Hx & Hy & _).
  exists self'. split; [reflexivity|]. cbn [planets].
  split; [apply write_back_In_self; exists self; split; [exact Hin | congruence]|].
  split; [exact Hid|]. split; [exact Hm|].
  rewrite Hx, Hy, Hvx, Hvy, !Rplus_0_l. repeat split; reflexivity.
Qed.

Lemma net_force_still :
  net_force still (planets approach) = (G / 86400 ^ 2 + 0, 0 + 0).
Proof.
  unfold net_force, approach. cbn [planets fold_right].
  change (same still still) with true. change (same still mover) with false.
  cbn iota. rewrite attract_still_mover. reflexivity.
Qed.

(** In [approach] the body [still] is pulled by [mover]: the net force is
    not zero, and the step gives [still] the velocity that force makes. *)
Lemma update_position_euler_witness :
  fst (net_force still (planets approach)) = G / 86400 ^ 2 + 0 /\
  exists self',
    In self' [still_after; mover] /\ ident self' = ident still /\
    x_vel self'
    = x_vel still + fst (net_force still (planets approach)) / mass still * TIMESTEP.
Proof.
  split; [rewrite net_force_still; reflexivity|].
  assert (Hno : forall q, In q (planets approach) -> ident q <> ident still ->
                          ~ overlaps still q).
  { intros q [<- | [<- | []]] Hne; [contradiction | exact approach_apart]. }
  destruct (update_position_euler still approach _ (or_introl eq_refl)
              update_still Hno)
    as (s & Hw & Hin & Hid & _ & Hvx & _).
  exists s. split; [exact Hin | split; assumption].
Defined.

(** ** A click on a body *)

Lemma click_picks_hovered_witness :
  dragging_planet
    (handle_event (600, 500) (planets rocks) (MOUSEBUTTONDOWN 1 (600, 500))
       ui_init)
  = Some (ident rock_a).
Proof.
  assert (Hz : zoom ui_init = 1) by (cbn [zoom ui_init]; lra).
  assert (Hu : under_mouse ui_init (600, 500) rock_a = true).
  { apply under_mouse_centre.
    - unfold scaled_x, WIDTH.
      cbn [fst x zoom offset_x ui_init rock_a body set_vel Planet_init]. lra.
    - unfold scaled_y, HEIGHT.
      cbn [snd y zoom offset_y ui_init rock_a body set_vel Planet_init]. lra.
    - pose proof SCALE_pos.
      cbn [radius zoom ui_init rock_a body set_vel Planet_init]. lra. }
  rewrite (click_picks_hovered ui_init (600, 500) (600, 500) (planets rocks) Hz).
  unfold rocks. cbn [planets find]. rewrite Hu. reflexivity.
Defined.
